(** * Verification of the coupled Hopf oscillator network (project-alfred)

    Shallow embedding of the Python classes [CoupledOscillatorNetwork] of
    [cpg_loconetwork.py] (module [Loco]), of the variant in
    [cpg_network_loco.py] (module [NetLoco]), of the plain network of
    [cpg_network.py] (module [Plain]) and of the copy in [ledlocotest.py]
    (module [LedLoco]).

    Modelling choices:
    - numpy floats are real numbers ([R]); [np.pi] is [PI];
    - a numpy vector is a [list R], a numpy n×n matrix a [list (list R)]
      (rows); reads out of range never happen on the shapes the class builds,
      we read them with a default of 0; writes use stdpp's list [insert];
    - Python's float [%] with a positive divisor is [py_mod];
    - the recursion depth that Python allows is an explicit budget [fuel]:
      a call made with no budget left raises [RecursionError];
    - [scipy.integrate.odeint] is an external solver: it is a parameter
      [odeint f y0 dt] of the development, returning the state at time [dt]
      (the last row of the trajectory for [t = [0, dt]]). *)

From Stdlib Require Import Reals Lra Lia ZArith.
From Stdlib Require Import FunctionalExtensionality.
From stdpp Require Import base list.
From Stdlib Require String Ascii.
Import (notations) Stdlib.Strings.String.

Local Open Scope R_scope.

(** ** Matrices as numpy 2-D arrays *)

Abbreviation mat := (list (list R)).

(** [np.zeros((n, n))] *)
Definition mat_zeros (n : nat) : mat := repeat (repeat 0 n) n.

(** [M[i, j]] *)
Definition mat_get (M : mat) (i j : nat) : R := default 0 (M !! i ≫= (.!! j)).

(** [M[i, j] = v] *)
Definition mat_set (M : mat) (i j : nat) (v : R) : mat :=
  alter (fun row => <[j := v]> row) i M.

(** The matrix with entry [f i j] at [(i, j)], used to state results. *)
Definition mat_init (n : nat) (f : nat -> nat -> R) : mat :=
  map (fun i => map (f i) (seq 0 n)) (seq 0 n).

(** A numpy [n×n] array. *)
Definition mat_shape (n : nat) (M : mat) : Prop :=
  length M = n /\ Forall (fun row => length row = n) M.

(** Python's float modulo for a positive divisor: [x - y * floor (x / y)]. *)
Definition py_mod (x y : R) : R := x - y * IZR (Int_part (x / y)).

(** [x != 0] on floats. *)
Definition nonzero (x : R) : bool := if Req_EM_T x 0 then false else true.

(** ** The gait loops shared by every variant

    [for i in range(n): for j in range(n): if i != j:
         coupling_weights[i, j] = coupling_strength
         phase_biases[i, j] = pb(i, j)]
    starting from two fresh [np.zeros((n, n))]. *)
Definition gait_loop (n : nat) (cs : R) (pb : nat -> nat -> R) : mat * mat :=
  fold_left (fun WP i =>
    fold_left (fun '(W, P) j =>
      if Nat.eqb i j then (W, P)
      else (mat_set W i j cs, mat_set P i j (pb i j)))
      (seq 0 n) WP)
    (seq 0 n) (mat_zeros n, mat_zeros n).

(** Tripod rule: [0 if (i % 2) == (j % 2) else np.pi]. *)
Definition tripod_bias (i j : nat) : R :=
  if Nat.eqb (Nat.modulo i 2) (Nat.modulo j 2) then 0 else PI.

(** Wave rule: [(2 * np.pi / self.n) * ((j - i) % self.n)] with Python's
    integer [%] (the sign of the divisor). *)
Definition wave_bias (n : nat) (i j : nat) : R :=
  (2 * PI / INR n) * IZR (Z.modulo (Z.of_nat j - Z.of_nat i) (Z.of_nat n)).

(** [for i in range(n): for j in range(n): if i != j:
         phase_biases[i, j] = (phase_biases[i, j] + direction_phase) % (2 * np.pi)]
    (the loop at the end of [_update_phase_relationships]). *)
Definition shift_phases (n : nat) (d : R) (P : mat) : mat :=
  fold_left (fun P i =>
    fold_left (fun P j =>
      if Nat.eqb i j then P
      else mat_set P i j (py_mod (mat_get P i j + d) (2 * PI)))
      (seq 0 n) P)
    (seq 0 n) P.

(** The coupling loop of [equations], identical in every variant:
    [for j in range(n): if i != j and coupling_weights[i, j] != 0: ...]. *)
Definition couple (n : nat) (W P : mat) (st : list R) (i : nat) (x_i y_i : R)
    (d : R * R) : R * R :=
  fold_left (fun '(dx_i, dy_i) j =>
    if negb (Nat.eqb i j) && nonzero (mat_get W i j) then
      let x_j := nth (2 * j) st 0 in
      let y_j := nth (2 * j + 1) st 0 in
      let phase_bias := mat_get P i j in
      let coupling_term_x := x_j * cos phase_bias - y_j * sin phase_bias in
      let coupling_term_y := x_j * sin phase_bias + y_j * cos phase_bias in
      (dx_i + mat_get W i j * (coupling_term_x - x_i),
       dy_i + mat_get W i j * (coupling_term_y - y_i))
    else (dx_i, dy_i))
    (seq 0 n) d.

(** [self.state = np.zeros(2 * n); for i in range(n): self.state[2*i] = 0.1] *)
Definition seed_state (n : nat) : list R :=
  fold_left (fun st i => <[(2 * i)%nat := 0.1]> st) (seq 0 n) (repeat 0 (2 * n)).

(** The gait tag [self.current_gait] ("tripod" / "wave"). *)
Inductive gait := Tripod | Wave.

(** [self.turning_direction] ("right" / "left"; [None] is [option]'s). *)
Inductive turn_dir := TurnRight | TurnLeft.

(** How a call returns: normally, or by Python's [RecursionError]. *)
Inductive outcome := Ok | RecursionError.

(** ** [cpg_loconetwork.py] *)
Module Loco.

Record net := mk_net {
  n : nat;
  amplitude : R;
  base_frequency : R;
  omega : R;
  mu : R;
  state : list R;
  coupling_weights : mat;
  phase_biases : mat;
  frequencies : list R;
  amplitudes : list R;
  current_gait : gait;
  direction_phase : R;
  turning : bool;
  turning_direction : option turn_dir;
  turning_factor : R;
  last_update_time : R }.

(** Field updates. *)
Definition with_matrices (W P : mat) (s : net) : net :=
  mk_net (n s) (amplitude s) (base_frequency s) (omega s) (mu s) (state s)
    W P (frequencies s) (amplitudes s) (current_gait s) (direction_phase s)
    (turning s) (turning_direction s) (turning_factor s) (last_update_time s).

Definition with_gait (g : gait) (d : R) (s : net) : net :=
  mk_net (n s) (amplitude s) (base_frequency s) (omega s) (mu s) (state s)
    (coupling_weights s) (phase_biases s) (frequencies s) (amplitudes s)
    g d (turning s) (turning_direction s) (turning_factor s)
    (last_update_time s).

Definition with_direction (d : R) (s : net) : net :=
  with_gait (current_gait s) d s.

Definition with_turn (t : bool) (td : option turn_dir) (tf : R)
    (amps freqs : list R) (s : net) : net :=
  mk_net (n s) (amplitude s) (base_frequency s) (omega s) (mu s) (state s)
    (coupling_weights s) (phase_biases s) freqs amps (current_gait s)
    (direction_phase s) t td tf (last_update_time s).

Definition with_state (st : list R) (last : R) (s : net) : net :=
  mk_net (n s) (amplitude s) (base_frequency s) (omega s) (mu s) st
    (coupling_weights s) (phase_biases s) (frequencies s) (amplitudes s)
    (current_gait s) (direction_phase s) (turning s) (turning_direction s)
    (turning_factor s) last.

(** The mutually recursive [set_tripod_gait], [set_wave_gait] and
    [_update_phase_relationships]. [fuel] is the remaining recursion depth. *)
Fixpoint set_tripod_gait (fuel : nat) (coupling_strength : R)
    (reset_direction : bool) (s : net) {struct fuel} : net * outcome :=
  match fuel with
  | O => (s, RecursionError)
  | S k =>
      let s1 := with_gait Tripod
                  (if reset_direction then 0 else direction_phase s) s in
      let '(W, P) := gait_loop (n s1) coupling_strength tripod_bias in
      let s2 := with_matrices W P s1 in
      if nonzero (direction_phase s2) then update_phase_relationships k s2
      else (s2, Ok)
  end
with set_wave_gait (fuel : nat) (coupling_strength : R)
    (reset_direction : bool) (s : net) {struct fuel} : net * outcome :=
  match fuel with
  | O => (s, RecursionError)
  | S k =>
      let s1 := with_gait Wave
                  (if reset_direction then 0 else direction_phase s) s in
      let '(W, P) := gait_loop (n s1) coupling_strength (wave_bias (n s1)) in
      let s2 := with_matrices W P s1 in
      if nonzero (direction_phase s2) then update_phase_relationships k s2
      else (s2, Ok)
  end
with update_phase_relationships (fuel : nat) (s : net) {struct fuel}
    : net * outcome :=
  match fuel with
  | O => (s, RecursionError)
  | S k =>
      let '(s1, r) :=
        match current_gait s with
        | Tripod => set_tripod_gait k 1 false s
        | Wave => set_wave_gait k 1 false s
        end in
      match r with
      | RecursionError => (s1, RecursionError)
      | Ok =>
          if nonzero (direction_phase s1) then
            (with_matrices (coupling_weights s1)
               (shift_phases (n s1) (direction_phase s1) (phase_biases s1)) s1,
             Ok)
          else (s1, Ok)
      end
  end.

(** [set_backward(backward)]: one frame, then [_update_phase_relationships]. *)
Definition set_backward (fuel : nat) (backward : bool) (s : net) : net * outcome :=
  match fuel with
  | O => (s, RecursionError)
  | S k => update_phase_relationships k
             (with_direction (if backward then PI else 0) s)
  end.

Definition set_forward (fuel : nat) (s : net) : net * outcome :=
  set_backward fuel false s.

(** [__init__(n_oscillators, amplitude, frequency, mu)] at wall-clock time
    [now]; ends with [self.set_tripod_gait()]. *)
Definition init (fuel : nat) (n_oscillators : nat) (amplitude frequency mu now : R)
    : net * outcome :=
  set_tripod_gait fuel 1 true
    (mk_net n_oscillators amplitude frequency (2 * PI * frequency) mu
       (seed_state n_oscillators)
       (mat_zeros n_oscillators) (mat_zeros n_oscillators)
       (repeat frequency n_oscillators) (repeat amplitude n_oscillators)
       Tripod 0 false None 0 now).

(** [max(0.0, min(1.0, turning_factor))] *)
Definition clamp01 (x : R) : R := Rmax 0 (Rmin 1 x).

(** The per-leg loop of [turn_right]/[turn_left]: [even] is the pair of
    multipliers for even indices, [odd] for odd ones. *)
Definition turn_loop (s : net) (even_a even_f odd_a odd_f : R)
    : list R * list R :=
  fold_left (fun '(amps, freqs) i =>
    if Nat.eqb (Nat.modulo i 2) 0 then
      (<[i := amplitude s * even_a]> amps, <[i := base_frequency s * even_f]> freqs)
    else
      (<[i := amplitude s * odd_a]> amps, <[i := base_frequency s * odd_f]> freqs))
    (seq 0 (n s)) (amplitudes s, frequencies s).

Definition turn_right (turning_factor : R) (s : net) : net :=
  let f := clamp01 turning_factor in
  let '(amps, freqs) :=
    turn_loop s (1.0 - f * 0.5) (1.0 - f * 0.3) (1.0 + f * 0.5) (1.0 + f * 0.3) in
  with_turn true (Some TurnRight) f amps freqs s.

Definition turn_left (turning_factor : R) (s : net) : net :=
  let f := clamp01 turning_factor in
  let '(amps, freqs) :=
    turn_loop s (1.0 + f * 0.5) (1.0 + f * 0.3) (1.0 - f * 0.5) (1.0 - f * 0.3) in
  with_turn true (Some TurnLeft) f amps freqs s.

(** [for i in range(n): amplitudes[i] = amplitude; frequencies[i] = base_frequency] *)
Definition restore_loop (s : net) : list R * list R :=
  fold_left (fun '(amps, freqs) i =>
    (<[i := amplitude s]> amps, <[i := base_frequency s]> freqs))
    (seq 0 (n s)) (amplitudes s, frequencies s).

Definition stop_turning (s : net) : net :=
  let '(amps, freqs) := restore_loop s in
  with_turn false None 0 amps freqs s.

(** [reset()] at wall-clock time [now]. *)
Definition reset (now : R) (s : net) : net :=
  let s1 := with_state (seed_state (n s)) now s in
  let '(amps, freqs) := restore_loop s1 in
  with_turn false None 0 amps freqs s1.

Section Integration.

(** The external solver: the state at time [dt] of the solution of
    [y' = f y] from [y0] at time 0 ([odeint(f, y0, [0, dt])[-1]]). *)
Variable odeint : (list R -> list R) -> list R -> R -> list R.

(** [equations(state, t)]; [t] is unused by the code. The code reads
    [state[2*i]], [state[2*i + 1]], [frequencies[i]], [amplitudes[i]] and
    the matrix entries for [i, j < n]: on a state of fewer than [2n] entries
    (or smaller arrays) it raises [IndexError]. This model does not
    represent that exception and reads 0 there; the solver calls
    [equations] on vectors of the length of [state], and the theorems about
    [equations] alone assume the lengths the code needs. *)
Definition equations (s : net) (st : list R) : list R :=
  fold_left (fun derivatives i =>
    let x_i := nth (2 * i) st 0 in
    let y_i := nth (2 * i + 1) st 0 in
    let local_omega := 2 * PI * nth i (frequencies s) 0 in
    let local_amplitude := nth i (amplitudes s) 0 in
    let r_squared := x_i ^ 2 + y_i ^ 2 in
    let dx_i := mu s * (local_amplitude - r_squared) * x_i - local_omega * y_i in
    let dy_i := mu s * (local_amplitude - r_squared) * y_i + local_omega * x_i in
    let '(dx_i, dy_i) :=
      couple (n s) (coupling_weights s) (phase_biases s) st i x_i y_i (dx_i, dy_i) in
    <[(2 * i + 1)%nat := dy_i]> (<[(2 * i)%nat := dx_i]> derivatives))
    (seq 0 (n s)) (repeat 0 (length st)).

(** [update(dt)] at wall-clock time [now]: returns the new network and the
    array of x-values. *)
Definition update (s : net) (now : R) (dt : option R) : net * list R :=
  let '(dt, last) :=
    match dt with
    | None => (now - last_update_time s, now)
    | Some d => (d, last_update_time s)
    end in
  let st := odeint (equations s) (state s) dt in
  (with_state st last s, map (fun i => nth (2 * i) st 0) (seq 0 (n s))).

End Integration.

End Loco.

(** ** [cpg_network_loco.py]: same class state as [Loco.net]; its gait
    setters do not call [_update_phase_relationships], so no recursion. *)
Module NetLoco.
Import Loco.

Definition set_tripod_gait (coupling_strength : R) (reset_direction : bool)
    (s : net) : net :=
  let s1 := with_gait Tripod (if reset_direction then 0 else direction_phase s) s in
  let '(W, P) := gait_loop (n s1) coupling_strength tripod_bias in
  with_matrices W P s1.

Definition set_wave_gait (coupling_strength : R) (reset_direction : bool)
    (s : net) : net :=
  let s1 := with_gait Wave (if reset_direction then 0 else direction_phase s) s in
  let '(W, P) := gait_loop (n s1) coupling_strength (wave_bias (n s1)) in
  with_matrices W P s1.

Definition update_phase_relationships (s : net) : net :=
  let s1 :=
    match current_gait s with
    | Tripod => set_tripod_gait 1 false s
    | Wave => set_wave_gait 1 false s
    end in
  if nonzero (direction_phase s1) then
    with_matrices (coupling_weights s1)
      (shift_phases (n s1) (direction_phase s1) (phase_biases s1)) s1
  else s1.

Definition set_backward (backward : bool) (s : net) : net :=
  update_phase_relationships (with_direction (if backward then PI else 0) s).

End NetLoco.

(** ** [ledlocotest.py]: same class state as [Loco.net]; its [reset]. *)
Module LedLoco.
Import Loco.

Definition reset (now : R) (s : net) : net :=
  let s1 := with_state (seed_state (n s)) now s in
  let '(amps, freqs) := restore_loop s1 in
  mk_net (n s1) (amplitude s1) (base_frequency s1) (omega s1) (mu s1) (state s1)
    (coupling_weights s1) (phase_biases s1) freqs amps (current_gait s1)
    (direction_phase s1) (turning s1) (turning_direction s1) (turning_factor s1)
    (last_update_time s1).

End LedLoco.

(** ** [cpg_network.py]: the plain network, one global amplitude and
    angular frequency. *)
Module Plain.

Record net := mk_net {
  n : nat;
  amplitude : R;
  omega : R;
  mu : R;
  state : list R;
  coupling_weights : mat;
  phase_biases : mat;
  last_update_time : R }.

Definition with_state (st : list R) (last : R) (s : net) : net :=
  mk_net (n s) (amplitude s) (omega s) (mu s) st (coupling_weights s)
    (phase_biases s) last.

Section Integration.

Variable odeint : (list R -> list R) -> list R -> R -> list R.

(** [equations(state, t)], as in [cpg_loconetwork.py] without the per-leg
    arrays: on a state of fewer than [2n] entries (or smaller matrices) the
    code raises [IndexError], which this model reads as 0 (see
    [Loco.equations]). *)
Definition equations (s : net) (st : list R) : list R :=
  fold_left (fun derivatives i =>
    let x_i := nth (2 * i) st 0 in
    let y_i := nth (2 * i + 1) st 0 in
    let r_squared := x_i ^ 2 + y_i ^ 2 in
    let dx_i := mu s * (amplitude s - r_squared) * x_i - omega s * y_i in
    let dy_i := mu s * (amplitude s - r_squared) * y_i + omega s * x_i in
    let '(dx_i, dy_i) :=
      couple (n s) (coupling_weights s) (phase_biases s) st i x_i y_i (dx_i, dy_i) in
    <[(2 * i + 1)%nat := dy_i]> (<[(2 * i)%nat := dx_i]> derivatives))
    (seq 0 (n s)) (repeat 0 (length st)).

Definition update (s : net) (now : R) (dt : option R) : net * list R :=
  let '(dt, last) :=
    match dt with
    | None => (now - last_update_time s, now)
    | Some d => (d, last_update_time s)
    end in
  let st := odeint (equations s) (state s) dt in
  (with_state st last s, map (fun i => nth (2 * i) st 0) (seq 0 (n s))).

End Integration.

Definition with_matrices (W P : mat) (s : net) : net :=
  mk_net (n s) (amplitude s) (omega s) (mu s) (state s) W P (last_update_time s).

(** [set_tripod_gait(coupling_strength)] *)
Definition set_tripod_gait (coupling_strength : R) (s : net) : net :=
  let '(W, P) := gait_loop (n s) coupling_strength tripod_bias in
  with_matrices W P s.

(** [set_wave_gait(coupling_strength)] *)
Definition set_wave_gait (coupling_strength : R) (s : net) : net :=
  let '(W, P) := gait_loop (n s) coupling_strength (wave_bias (n s)) in
  with_matrices W P s.

(** [__init__(n_oscillators, amplitude, frequency, mu)] at wall-clock time
    [now]; ends with [self.set_tripod_gait()]. *)
Definition init (n_oscillators : nat) (amplitude frequency mu now : R) : net :=
  set_tripod_gait 1
    (mk_net n_oscillators amplitude (2 * PI * frequency) mu
       (seed_state n_oscillators) (mat_zeros n_oscillators) (mat_zeros n_oscillators)
       now).

(** [reset()] at wall-clock time [now]. *)
Definition reset (now : R) (s : net) : net := with_state (seed_state (n s)) now s.

End Plain.

(** ** Reachable states of [cpg_loconetwork.py]

    Every public operation, with any arguments of the documented types; a
    call that raises still leaves behind the mutations it made before the
    exception, so its post-state is reachable too. [cs_ok] restricts the
    [coupling_strength] arguments a caller passes to the gait setters
    ([fun _ => True] for all floats). *)
Section Reachable.

Variable odeint : (list R -> list R) -> list R -> R -> list R.
Variable cs_ok : R -> Prop.

Inductive reachable : Loco.net -> Prop :=
  | reach_init fuel n_osc A f mu now :
      reachable (fst (Loco.init fuel n_osc A f mu now))
  | reach_update s now dt :
      reachable s -> reachable (fst (Loco.update odeint s now dt))
  | reach_tripod fuel cs rd s :
      cs_ok cs -> reachable s -> reachable (fst (Loco.set_tripod_gait fuel cs rd s))
  | reach_wave fuel cs rd s :
      cs_ok cs -> reachable s -> reachable (fst (Loco.set_wave_gait fuel cs rd s))
  | reach_backward fuel b s :
      reachable s -> reachable (fst (Loco.set_backward fuel b s))
  | reach_turn_right f s : reachable s -> reachable (Loco.turn_right f s)
  | reach_turn_left f s : reachable s -> reachable (Loco.turn_left f s)
  | reach_stop s : reachable s -> reachable (Loco.stop_turning s)
  | reach_reset now s : reachable s -> reachable (Loco.reset now s).

End Reachable.

(** The matrix invariant of the spec's data model: both matrices n×n with
    zero diagonal, coupling weights non-negative, phase biases in [0, 2π). *)
Definition mat_inv (n : nat) (W P : mat) : Prop :=
  mat_shape n W /\ mat_shape n P /\
  (forall i, (i < n)%nat -> mat_get W i i = 0 /\ mat_get P i i = 0) /\
  (forall i j, (i < n)%nat -> (j < n)%nat -> i <> j -> 0 <= mat_get W i j) /\
  (forall i j, (i < n)%nat -> (j < n)%nat -> 0 <= mat_get P i j < 2 * PI).

Definition matrix_invariant (s : Loco.net) : Prop :=
  mat_inv (Loco.n s) (Loco.coupling_weights s) (Loco.phase_biases s).

(** Repeated ticks, as the caller's control loop issues them: each tick is
    a wall-clock reading and an optional [dt]. *)
Definition tick := (R * option R)%type.

Fixpoint loco_run odeint (s : Loco.net) (ticks : list tick)
    : Loco.net * list (list R) :=
  match ticks with
  | [] => (s, [])
  | (now, dt) :: rest =>
      let '(s1, out) := Loco.update odeint s now dt in
      let '(s2, outs) := loco_run odeint s1 rest in
      (s2, out :: outs)
  end.

Fixpoint plain_run odeint (p : Plain.net) (ticks : list tick)
    : Plain.net * list (list R) :=
  match ticks with
  | [] => (p, [])
  | (now, dt) :: rest =>
      let '(p1, out) := Plain.update odeint p now dt in
      let '(p2, outs) := plain_run odeint p1 rest in
      (p2, out :: outs)
  end.

(** Concrete inputs used to instantiate the theorems below: a two-leg
    network as [__init__] builds it before its [set_tripod_gait()] call, its
    plain counterpart, and an explicit Euler step as a solver. *)
Definition sample_net : Loco.net :=
  Loco.mk_net 2 1 1 (2 * PI * 1) 1 (seed_state 2) (mat_zeros 2) (mat_zeros 2)
    (repeat 1 2) (repeat 1 2) Tripod 0 false None 0 0.

Definition sample_plain : Plain.net :=
  Plain.mk_net 2 1 (2 * PI * 1) 1 (seed_state 2) (mat_zeros 2) (mat_zeros 2) 0.

Definition euler_step (f : list R -> list R) (y : list R) (dt : R) : list R :=
  imap (fun k a => a + dt * nth k (f y) 0) y.

(** The extended and the plain network agree on their configuration:
    same size, amplitude, convergence rate and matrices, [omega] of the plain
    network equal to [2π·base_frequency], and every per-leg override at its
    base value. *)
Definition plain_agrees (s : Loco.net) (p : Plain.net) : Prop :=
  Plain.n p = Loco.n s /\ Plain.amplitude p = Loco.amplitude s /\
  Plain.omega p = 2 * PI * Loco.base_frequency s /\ Plain.mu p = Loco.mu s /\
  Plain.coupling_weights p = Loco.coupling_weights s /\
  Plain.phase_biases p = Loco.phase_biases s /\
  (forall i, (i < Loco.n s)%nat -> nth i (Loco.frequencies s) 0 = Loco.base_frequency s) /\
  (forall i, (i < Loco.n s)%nat -> nth i (Loco.amplitudes s) 0 = Loco.amplitude s).

(** ** [cpg_single_hopf.py]: one Hopf oscillator *)
Module Hopf.

Record osc := mk_osc {
  amplitude : R;
  omega : R;
  mu : R;
  x : R;
  y : R;
  last_update_time : R }.

(** [__init__(amplitude, frequency, mu)] at wall-clock time [now]. *)
Definition init (amplitude frequency mu now : R) : osc :=
  mk_osc amplitude (2 * PI * frequency) mu 0.1 0 now.

(** [equations(state, t)]: [x, y = state] raises [ValueError] ([None])
    unless the state has exactly two entries. *)
Definition equations (o : osc) (state : list R) : option (list R) :=
  match state with
  | [x; y] =>
      let dx := mu o * (amplitude o - (x ^ 2 + y ^ 2)) * x - omega o * y in
      let dy := mu o * (amplitude o - (x ^ 2 + y ^ 2)) * y + omega o * x in
      Some [dx; dy]
  | _ => None
  end.

(** [reset(x, y)] at wall-clock time [now]. *)
Definition reset (x y now : R) (o : osc) : osc :=
  mk_osc (amplitude o) (omega o) (mu o) x y now.

Section Integration.

(** The external solver applied to [self.equations], which may raise:
    [None] when the integration raises, else the state at time [dt]. *)
Variable odeint : (list R -> option (list R)) -> list R -> R -> option (list R).

(** [update(dt)] at wall-clock time [now]: the oscillator after the call
    and the returned [self.x], or [None] when the call raises.
    [last_update_time] is written before the integration, so it is kept
    even when the call raises ([ValueError] of [self.x, self.y = state[-1]]
    if the solver's state does not have two entries). *)
Definition update (o : osc) (now : R) (dt : option R) : osc * option R :=
  let '(dt, last) :=
    match dt with
    | None => (now - last_update_time o, now)
    | Some d => (d, last_update_time o)
    end in
  let o' := mk_osc (amplitude o) (omega o) (mu o) (x o) (y o) last in
  match odeint (equations o) [x o; y o] dt with
  | Some [x'; y'] => (mk_osc (amplitude o) (omega o) (mu o) x' y' last, Some x')
  | _ => (o', None)
  end.

(** [k] calls [update(dt)] with the same [dt]; [None] once a call raises. *)
Fixpoint run (o : osc) (now dt : R) (k : nat) : option osc :=
  match k with
  | O => Some o
  | S k =>
      match run o now dt k with
      | Some o1 =>
          match update o1 now (Some dt) with
          | (o2, Some _) => Some o2
          | (_, None) => None
          end
      | None => None
      end
  end.

End Integration.

End Hopf.

(** The radius map of the Hopf equations: after a time [t] the squared
    radius [rho] of the solution is [radius_map A rho (exp (-2 mu A t))]. *)
Definition radius_map (A rho e : R) : R := A * rho / (rho + (A - rho) * e).

Definition flow_den (A mu rho t : R) : R := rho + (A - rho) * exp (- (2 * mu * A * t)).

Definition flow_gain (A mu rho t : R) : R := sqrt (A / flow_den A mu rho t).

(** The closed-form solution at time [t] of [dx/dt = mu (A - r^2) x - w y],
    [dy/dt = mu (A - r^2) y + w x] from [st = [x; y]]: the point rotated by
    [w t] and scaled to the squared radius [radius_map]. *)
Definition hopf_flow (A w mu : R) (st : list R) (t : R) : list R :=
  match st with
  | [x; y] =>
      let s := flow_gain A mu (x ^ 2 + y ^ 2) t in
      [s * (x * cos (w * t) - y * sin (w * t)); s * (x * sin (w * t) + y * cos (w * t))]
  | _ => st
  end.

(** ** [ledlocotest.py]: leg names, [get_active_legs],
    [leg_command_translator] and [HexapodController]

    The network class of [ledlocotest.py] runs the same code as
    [cpg_loconetwork.py] for [__init__], [update], the gait setters,
    [set_backward], [set_forward] and the turns (its [reset] is
    [LedLoco.reset]); its [leg_names] dictionary is a constant. *)
Module Led.

(** The Python exceptions these functions can raise. *)
Inductive exn := KeyError | IndexError.

(** [leg_names[i]]: the dictionary [{0: "frontright", ..., 5: "backleft"}];
    [None] is the [KeyError] of a missing key. *)
Definition leg_names (i : nat) : option String.string :=
  match i with
  | 0 => Some "frontright"%string
  | 1 => Some "frontleft"%string
  | 2 => Some "midright"%string
  | 3 => Some "midleft"%string
  | 4 => Some "backright"%string
  | 5 => Some "backleft"%string
  | _ => None
  end.

(** [len(leg_names)] *)
Definition leg_names_len : nat := 6.

(** [a > b] on floats. *)
Definition gtb (a b : R) : bool := if Rlt_dec b a then true else false.

(** One iteration of [for i in range(n): if v[i] > threshold:
    active_legs.append(leg_names[i])], where [look i] reads [v[i]]
    ([None]: [IndexError]); a raised exception ends the loop. *)
Definition active_step (look : nat -> option R) (threshold : R)
    (acc : exn + list String.string) (i : nat) : exn + list String.string :=
  match acc with
  | inl e => inl e
  | inr active_legs =>
      match look i with
      | None => inl IndexError
      | Some v =>
          if gtb v threshold then
            match leg_names i with
            | Some name => inr (active_legs ++ [name])
            | None => inl KeyError
            end
          else inr active_legs
      end
  end.

(** [CoupledOscillatorNetwork.get_active_legs(threshold)] *)
Definition get_active_legs (threshold : R) (s : Loco.net) : exn + list String.string :=
  fold_left (active_step (fun i => Loco.state s !! (2 * i)%nat) threshold)
    (seq 0 (Loco.n s)) (inr []).

(** The loop [for i, output in enumerate(outputs): if output > threshold:
    active_legs.append(leg_names[i])] of [leg_command_translator], from
    index [i] on. *)
Fixpoint collect (threshold : R) (i : nat) (outputs : list R)
    (active_legs : list String.string) : exn + list String.string :=
  match outputs with
  | [] => inr active_legs
  | output :: rest =>
      if gtb output threshold then
        match leg_names i with
        | Some name => collect threshold (S i) rest (active_legs ++ [name])
        | None => inl KeyError
        end
      else collect threshold (S i) rest active_legs
  end.

(** [leg_command_translator(outputs, threshold)] *)
Definition leg_command_translator (outputs : list R) (threshold : R)
    : exn + String.string :=
  match collect threshold 0 outputs [] with
  | inl e => inl e
  | inr active_legs =>
      inr (match active_legs with
           | [] => "off"%string
           | _ => if Nat.eqb (length active_legs) leg_names_len then "all"%string
                  else String.concat "," active_legs
           end)
  end.

(** Python's [str.lower()] on ASCII text. *)
Definition ascii_lower (c : Ascii.ascii) : Ascii.ascii :=
  let k := Ascii.nat_of_ascii c in
  if Nat.leb 65 k && Nat.leb k 90 then Ascii.ascii_of_nat (k + 32) else c.

Fixpoint lower (s : String.string) : String.string :=
  match s with
  | String.EmptyString => String.EmptyString
  | String.String c rest => String.String (ascii_lower c) (lower rest)
  end.

(** [HexapodController]: its network, [last_active_legs], and whether a
    serial port was given. *)
Record controller := mk_controller {
  cpg : Loco.net;
  last_active_legs : list String.string;
  serial_enabled : bool }.

Definition with_cpg (s : Loco.net) (c : controller) : controller :=
  mk_controller s (last_active_legs c) (serial_enabled c).

(** [__init__(serial_port, baud_rate)] at wall-clock time [now]: the
    network is [CoupledOscillatorNetwork(n_oscillators=6, frequency=1.0)]
    (its constructor may raise [RecursionError]); opening the port is
    outside the model. *)
Definition init (fuel : nat) (serial_port_given : bool) (now : R)
    : controller * outcome :=
  let '(s, r) := Loco.init fuel 6 1 1 1 now in
  (mk_controller s [] serial_port_given, r).

(** [update(dt)] at wall-clock time [now]: the new controller, the active
    legs it returns (or the exception raised), and the commands passed to
    [_send_command], in order ([_send_command(c)] prints [Command: c] and
    writes [c\n] to the port when serial is enabled). *)
Definition update odeint (c : controller) (now : R) (dt : option R)
    : controller * (exn + list String.string) * list String.string :=
  let '(s, outputs) := Loco.update odeint (cpg c) now dt in
  let active :=
    fold_left (active_step (fun i => outputs !! i) 0.5) (seq 0 (Loco.n s)) (inr []) in
  match active with
  | inl e => (with_cpg s c, inl e, [])
  | inr active_legs =>
      if List.list_eq_dec String.string_dec active_legs (last_active_legs c) then
        (with_cpg s c, inr active_legs, [])
      else
        let sent :=
          List.filter (fun leg => negb (existsb (String.eqb leg) (last_active_legs c)))
            active_legs ++
          (match active_legs with [] => ["off"%string] | _ => [] end) in
        (mk_controller s active_legs (serial_enabled c), inr active_legs, sent)
  end.

(** [set_gait(gait_type)]; the printed message is not modelled. *)
Definition set_gait (fuel : nat) (gait_type : String.string) (c : controller)
    : controller * outcome :=
  if String.eqb (lower gait_type) "tripod" then
    let '(s, r) := Loco.set_tripod_gait fuel 1 true (cpg c) in (with_cpg s c, r)
  else if String.eqb (lower gait_type) "wave" then
    let '(s, r) := Loco.set_wave_gait fuel 1 true (cpg c) in (with_cpg s c, r)
  else (c, Ok).

(** [set_direction(direction)]; the printed message is not modelled. *)
Definition set_direction (fuel : nat) (direction : String.string) (c : controller)
    : controller * outcome :=
  if String.eqb (lower direction) "forward" then
    let '(s, r) := Loco.set_forward fuel (cpg c) in (with_cpg s c, r)
  else if String.eqb (lower direction) "backward" then
    let '(s, r) := Loco.set_backward fuel true (cpg c) in (with_cpg s c, r)
  else (c, Ok).

(** [turn(direction, factor)]; the printed message is not modelled. *)
Definition turn (direction : String.string) (factor : R) (c : controller) : controller :=
  if String.eqb (lower direction) "left" then with_cpg (Loco.turn_left factor (cpg c)) c
  else if String.eqb (lower direction) "right" then
    with_cpg (Loco.turn_right factor (cpg c)) c
  else c.

(** [reset()] at wall-clock time [now]: the new controller and the
    commands sent ([off]). *)
Definition reset (now : R) (c : controller) : controller * list String.string :=
  (mk_controller (LedLoco.reset now (cpg c)) [] (serial_enabled c), ["off"%string]).

End Led.

(** Helpers for stating results. *)

(** The bias rule of a gait on [n] legs. *)
Definition gait_bias (g : gait) (n : nat) : nat -> nat -> R :=
  match g with Tripod => tripod_bias | Wave => wave_bias n end.

(** The indices [i, i+1, ...] of the entries of [outputs] above [threshold]. *)
Fixpoint active_idx (threshold : R) (i : nat) (outputs : list R) : list nat :=
  match outputs with
  | [] => []
  | o :: rest =>
      if Led.gtb o threshold then i :: active_idx threshold (S i) rest
      else active_idx threshold (S i) rest
  end.

(** The calls that change the turn state of [cpg_loconetwork.py]. *)
Inductive turn_op := OpRight (f : R) | OpLeft (f : R) | OpStop.

Definition apply_turn_op (o : turn_op) (s : Loco.net) : Loco.net :=
  match o with
  | OpRight f => Loco.turn_right f s
  | OpLeft f => Loco.turn_left f s
  | OpStop => Loco.stop_turning s
  end.

(** The extended and the plain network in lockstep: same configuration,
    same state vector and same clock. *)
Definition in_lockstep (s : Loco.net) (p : Plain.net) : Prop :=
  plain_agrees s p /\ Plain.state p = Loco.state s /\
  Plain.last_update_time p = Loco.last_update_time s.

(** Any sequence of [update] calls returns the same outputs on both. *)
Definition same_outputs (s : Loco.net) (p : Plain.net) : Prop :=
  forall odeint ticks, snd (loco_run odeint s ticks) = snd (plain_run odeint p ticks).

(** ** Lemmas on the matrix model *)

Lemma mat_set_get n M i j v a b :
  mat_shape n M -> (i < n)%nat -> (j < n)%nat ->
  mat_get (mat_set M i j v) a b =
  if Nat.eqb a i && Nat.eqb b j then v else mat_get M a b.
Proof.
  intros [HM Hrows] Hi Hj. unfold mat_get, mat_set.
  destruct (Nat.eqb_spec a i) as [->|Hai]; cbn [andb].
  - rewrite list_lookup_alter_eq.
    destruct (lookup_lt_is_Some_2 M i) as [row Hrow]; [lia|].
    rewrite Hrow; simpl.
    assert (length row = n) by (rewrite Forall_lookup in Hrows; eauto).
    destruct (Nat.eqb_spec b j) as [->|Hbj]; cbn [andb].
    + rewrite list_lookup_insert_eq by lia. reflexivity.
    + rewrite list_lookup_insert_ne by congruence. reflexivity.
  - rewrite list_lookup_alter_ne by congruence. reflexivity.
Qed.

Lemma mat_set_shape n M i j v :
  mat_shape n M -> mat_shape n (mat_set M i j v).
Proof.
  intros [HM Hrows]. unfold mat_set. split.
  - rewrite length_alter. exact HM.
  - apply Forall_alter; [exact Hrows|]. intros row _ Hr.
    rewrite length_insert. exact Hr.
Qed.

Lemma lookup_repeat_lt {A} (x : A) (n i : nat) :
  (i < n)%nat -> repeat x n !! i = Some x.
Proof.
  revert i. induction n as [|n IH]; intros [|i] Hi; simpl; try lia; auto.
  apply IH. lia.
Qed.

Lemma lookup_repeat_ge {A} (x : A) (n i : nat) :
  (n <= i)%nat -> repeat x n !! i = None.
Proof.
  revert i. induction n as [|n IH]; intros [|i] Hi; simpl; try lia; auto.
  apply IH. lia.
Qed.

Lemma mat_zeros_shape n : mat_shape n (mat_zeros n).
Proof.
  unfold mat_zeros. split.
  - apply repeat_length.
  - apply List.Forall_forall. intros row Hrow.
    apply repeat_spec in Hrow. subst. apply repeat_length.
Qed.

Lemma mat_zeros_get n a b : mat_get (mat_zeros n) a b = 0.
Proof.
  unfold mat_get, mat_zeros.
  destruct (decide (a < n)%nat).
  - rewrite lookup_repeat_lt by lia. simpl.
    destruct (decide (b < n)%nat).
    + rewrite lookup_repeat_lt by lia. reflexivity.
    + rewrite lookup_repeat_ge by lia. reflexivity.
  - rewrite lookup_repeat_ge by lia. reflexivity.
Qed.

Lemma existsb_seq b n : existsb (Nat.eqb b) (seq 0 n) = Nat.ltb b n.
Proof.
  destruct (Nat.ltb_spec b n).
  - apply existsb_exists. exists b. split; [apply in_seq; lia | apply Nat.eqb_refl].
  - destruct (existsb _ _) eqn:E; [|reflexivity].
    apply existsb_exists in E as [x [Hx Hb]].
    apply in_seq in Hx. apply Nat.eqb_eq in Hb. lia.
Qed.

Lemma Forall_seq_lt n : List.Forall (fun j => j < n)%nat (seq 0 n).
Proof. apply List.Forall_forall. intros x Hx. apply in_seq in Hx. lia. Qed.

(** One row of the gait loop: [for j in l: if i != j: ...]. *)
Lemma gait_row n cs pb i (l : list nat) W P W' P' :
  mat_shape n W -> mat_shape n P -> (i < n)%nat ->
  List.Forall (fun j => j < n)%nat l ->
  fold_left (fun '(W, P) j =>
    if Nat.eqb i j then (W, P)
    else (mat_set W i j cs, mat_set P i j (pb i j))) l (W, P) = (W', P') ->
  mat_shape n W' /\ mat_shape n P' /\
  forall a b,
    mat_get W' a b =
      (if Nat.eqb a i && existsb (Nat.eqb b) l && negb (Nat.eqb a b)
       then cs else mat_get W a b) /\
    mat_get P' a b =
      (if Nat.eqb a i && existsb (Nat.eqb b) l && negb (Nat.eqb a b)
       then pb a b else mat_get P a b).
Proof.
  revert W P. induction l as [|j l IH]; intros W P HW HP Hi Hl Hfold; simpl in Hfold.
  - injection Hfold as <- <-. split; [|split]; auto. intros a b.
    simpl. rewrite andb_false_r. simpl. auto.
  - inversion Hl as [|? ? Hj Hl']; subst.
    destruct (Nat.eqb_spec i j) as [<-|Hij].
    + destruct (IH W P HW HP Hi Hl' Hfold) as (HW' & HP' & Hget).
      split; [|split]; auto. intros a b. rewrite (proj1 (Hget a b)), (proj2 (Hget a b)).
      simpl. destruct (Nat.eqb_spec a i) as [Ha|Ha], (Nat.eqb_spec b i) as [Hb|Hb],
        (Nat.eqb_spec a b) as [Hab|Hab], (existsb (Nat.eqb b) l);
        simpl; auto; exfalso; lia.
    + destruct (IH _ _ (mat_set_shape n W i j cs HW)
                  (mat_set_shape n P i j (pb i j) HP) Hi Hl' Hfold)
        as (HW' & HP' & Hget).
      split; [|split]; auto. intros a b.
      rewrite (proj1 (Hget a b)), (proj2 (Hget a b)).
      rewrite (mat_set_get n W i j cs a b HW Hi Hj).
      rewrite (mat_set_get n P i j (pb i j) a b HP Hi Hj).
      simpl. destruct (Nat.eqb_spec a i) as [Ha|Ha], (Nat.eqb_spec b j) as [Hb|Hb],
        (Nat.eqb_spec a b) as [Hab|Hab], (existsb (Nat.eqb b) l);
        simpl; subst; auto; exfalso; lia.
Qed.

(** The outer loop [for i in l: for j in range(n): ...]. *)
Lemma gait_rows n cs pb (l : list nat) W P W' P' :
  mat_shape n W -> mat_shape n P -> List.Forall (fun i => i < n)%nat l ->
  fold_left (fun WP i =>
    fold_left (fun '(W, P) j =>
      if Nat.eqb i j then (W, P)
      else (mat_set W i j cs, mat_set P i j (pb i j)))
      (seq 0 n) WP) l (W, P) = (W', P') ->
  mat_shape n W' /\ mat_shape n P' /\
  forall a b,
    mat_get W' a b =
      (if existsb (Nat.eqb a) l && Nat.ltb b n && negb (Nat.eqb a b)
       then cs else mat_get W a b) /\
    mat_get P' a b =
      (if existsb (Nat.eqb a) l && Nat.ltb b n && negb (Nat.eqb a b)
       then pb a b else mat_get P a b).
Proof.
  revert W P. induction l as [|i l IH]; intros W P HW HP Hl Hfold; simpl in Hfold.
  - injection Hfold as <- <-. split; [|split]; auto.
  - inversion Hl as [|? ? Hi Hl']; subst.
    destruct (fold_left _ (seq 0 n) (W, P)) as [W1 P1] eqn:E.
    destruct (gait_row n cs pb i (seq 0 n) W P W1 P1 HW HP Hi (Forall_seq_lt n) E)
      as (HW1 & HP1 & Hget1).
    destruct (IH W1 P1 HW1 HP1 Hl' Hfold) as (HW' & HP' & Hget).
    split; [|split]; auto. intros a b.
    rewrite (proj1 (Hget a b)), (proj2 (Hget a b)),
      (proj1 (Hget1 a b)), (proj2 (Hget1 a b)), existsb_seq.
    simpl. destruct (Nat.eqb_spec a i) as [Ha|Ha], (existsb (Nat.eqb a) l),
      (Nat.ltb b n), (Nat.eqb_spec a b) as [Hab|Hab];
      simpl; subst; auto; exfalso; lia.
Qed.

(** The whole gait loop: both matrices n×n, zero diagonal, and the gait's
    entries off the diagonal. *)
Lemma gait_loop_spec n cs pb W P :
  gait_loop n cs pb = (W, P) ->
  mat_shape n W /\ mat_shape n P /\
  forall a b, (a < n)%nat -> (b < n)%nat ->
    mat_get W a b = (if Nat.eqb a b then 0 else cs) /\
    mat_get P a b = (if Nat.eqb a b then 0 else pb a b).
Proof.
  unfold gait_loop. intros Hfold.
  destruct (gait_rows n cs pb (seq 0 n) _ _ W P (mat_zeros_shape n)
              (mat_zeros_shape n) (Forall_seq_lt n) Hfold) as (HW & HP & Hget).
  split; [|split]; auto. intros a b Ha Hb.
  rewrite (proj1 (Hget a b)), (proj2 (Hget a b)), existsb_seq, !mat_zeros_get.
  destruct (Nat.ltb_spec a n); [|lia]. destruct (Nat.ltb_spec b n); [|lia].
  destruct (Nat.eqb_spec a b); simpl; auto.
Qed.

Lemma nonzero_0 : nonzero 0 = false.
Proof. unfold nonzero. destruct (Req_EM_T 0 0); congruence. Qed.

Lemma nonzero_neq x : x <> 0 -> nonzero x = true.
Proof. unfold nonzero. destruct (Req_EM_T x 0); congruence. Qed.

Lemma nonzero_PI : nonzero PI = true.
Proof. apply nonzero_neq. apply PI_neq0. Qed.

(** ** C3: gait matrices under forward direction *)

(** Claim C3. For every n ≥ 1 and every coupling strength, applying the
    tripod or the wave gait with forward direction (resetting the direction,
    or keeping a direction that is already 0) returns normally and sets every
    off-diagonal coupling weight to the coupling strength and the diagonal to
    0; the phase biases are 0 on the diagonal and, off it, 0 for equal index
    parity and π otherwise (tripod), or (2π/n)·((j − i) mod n) (wave). *)
Theorem gait_forward_matrices (fuel : nat) (cs : R) (rd : bool) (s : Loco.net) :
  (1 <= fuel)%nat -> (1 <= Loco.n s)%nat ->
  (rd = true \/ Loco.direction_phase s = 0) ->
  (forall s' r, Loco.set_tripod_gait fuel cs rd s = (s', r) ->
     r = Ok /\ Loco.current_gait s' = Tripod /\ Loco.direction_phase s' = 0 /\
     mat_shape (Loco.n s) (Loco.coupling_weights s') /\
     mat_shape (Loco.n s) (Loco.phase_biases s') /\
     forall i j, (i < Loco.n s)%nat -> (j < Loco.n s)%nat ->
       mat_get (Loco.coupling_weights s') i j = (if Nat.eqb i j then 0 else cs) /\
       mat_get (Loco.phase_biases s') i j =
         (if Nat.eqb i j then 0
          else if Nat.eqb (Nat.modulo i 2) (Nat.modulo j 2) then 0 else PI)) /\
  (forall s' r, Loco.set_wave_gait fuel cs rd s = (s', r) ->
     r = Ok /\ Loco.current_gait s' = Wave /\ Loco.direction_phase s' = 0 /\
     mat_shape (Loco.n s) (Loco.coupling_weights s') /\
     mat_shape (Loco.n s) (Loco.phase_biases s') /\
     forall i j, (i < Loco.n s)%nat -> (j < Loco.n s)%nat ->
       mat_get (Loco.coupling_weights s') i j = (if Nat.eqb i j then 0 else cs) /\
       mat_get (Loco.phase_biases s') i j =
         (if Nat.eqb i j then 0
          else (2 * PI / INR (Loco.n s)) *
               IZR (Z.modulo (Z.of_nat j - Z.of_nat i) (Z.of_nat (Loco.n s))))).
Proof.
  intros Hfuel _ Hdir. destruct fuel as [|k]; [lia|].
  assert (Hd : (if rd then 0 else Loco.direction_phase s) = 0)
    by (destruct rd; [reflexivity|destruct Hdir; [discriminate|assumption]]).
  split; intros s' r Hcall; simpl in Hcall.
  - destruct (gait_loop _ cs tripod_bias) as [W P] eqn:E.
    simpl in Hcall. rewrite Hd, nonzero_0 in Hcall.
    injection Hcall as <- <-. simpl.
    destruct (gait_loop_spec _ _ _ _ _ E) as (HW & HP & Hget).
    refine (conj eq_refl (conj eq_refl (conj eq_refl (conj HW (conj HP _))))).
    intros i j Hi Hj. apply Hget; auto.
  - destruct (gait_loop _ cs _) as [W P] eqn:E.
    simpl in Hcall. rewrite Hd, nonzero_0 in Hcall.
    injection Hcall as <- <-. simpl.
    destruct (gait_loop_spec _ _ _ _ _ E) as (HW & HP & Hget).
    refine (conj eq_refl (conj eq_refl (conj eq_refl (conj HW (conj HP _))))).
    intros i j Hi Hj. apply Hget; auto.
Qed.

(** ** Lemmas on the per-leg loops *)

Lemma mod2_even i : Nat.eqb (Nat.modulo i 2) 0 = Nat.even i.
Proof.
  induction i as [i IH] using lt_wf_ind. destruct i as [|[|i]]; [reflexivity|reflexivity|].
  change (Nat.even (S (S i))) with (Nat.even i). rewrite <- IH by lia.
  f_equal. replace (S (S i)) with (i + 1 * 2)%nat by lia. apply Nat.Div0.mod_add.
Qed.

Lemma insert_lookup_fmap (l : list R) i j x :
  <[j := x]> l !! i = if Nat.eqb i j then (fun _ => x) <$> l !! i else l !! i.
Proof.
  rewrite list_lookup_insert. destruct (Nat.eqb_spec i j) as [->|Hij].
  - case_decide as Hc.
    + destruct (lookup_lt_is_Some_2 l j) as [y ->]; [tauto|reflexivity].
    + rewrite lookup_ge_None_2; [reflexivity|]. lia.
  - case_decide as Hc; [lia|reflexivity].
Qed.

(** A loop [for i in l: a[i] = f(i); b[i] = g(i)] over two arrays. *)
Lemma fold_insert_pair (step : list R * list R -> nat -> list R * list R)
    (f g : nat -> R) (l : list nat) (A F A' F' : list R) :
  (forall A F i, step (A, F) i = (<[i := f i]> A, <[i := g i]> F)) ->
  fold_left step l (A, F) = (A', F') ->
  length A' = length A /\ length F' = length F /\
  forall i,
    A' !! i = (if existsb (Nat.eqb i) l then (fun _ => f i) <$> A !! i else A !! i) /\
    F' !! i = (if existsb (Nat.eqb i) l then (fun _ => g i) <$> F !! i else F !! i).
Proof.
  intros Hstep. revert A F. induction l as [|j l IH]; intros A F Hfold; simpl in Hfold.
  - injection Hfold as <- <-. split; [|split]; auto.
  - rewrite Hstep in Hfold.
    destruct (IH _ _ Hfold) as (HA & HF & Hget).
    rewrite length_insert in HA, HF. split; [|split]; auto. intros i.
    rewrite (proj1 (Hget i)), (proj2 (Hget i)), !insert_lookup_fmap. simpl.
    destruct (Nat.eqb_spec i j) as [Heq|Hij]; [subst j|];
      destruct (existsb (Nat.eqb i) l); simpl;
      destruct (A !! i), (F !! i); auto.
Qed.

Lemma turn_loop_spec (s : Loco.net) ea ef oa of A' F' :
  length (Loco.amplitudes s) = Loco.n s -> length (Loco.frequencies s) = Loco.n s ->
  Loco.turn_loop s ea ef oa of = (A', F') ->
  length A' = Loco.n s /\ length F' = Loco.n s /\
  forall i, (i < Loco.n s)%nat ->
    A' !! i = Some (Loco.amplitude s * (if Nat.even i then ea else oa)) /\
    F' !! i = Some (Loco.base_frequency s * (if Nat.even i then ef else of)).
Proof.
  intros HA HF Hloop. unfold Loco.turn_loop in Hloop.
  eapply (fold_insert_pair _
              (fun i => Loco.amplitude s * (if Nat.even i then ea else oa))
              (fun i => Loco.base_frequency s * (if Nat.even i then ef else of)))
    in Hloop as (HA' & HF' & Hget);
    [|intros A F i; cbv beta iota; rewrite mod2_even;
      destruct (Nat.even i); reflexivity].
  split; [lia|split; [lia|]]. intros i Hi.
  rewrite (proj1 (Hget i)), (proj2 (Hget i)), existsb_seq.
  destruct (Nat.ltb_spec i (Loco.n s)); [|lia].
  destruct (lookup_lt_is_Some_2 (Loco.amplitudes s) i) as [a ->]; [lia|].
  destruct (lookup_lt_is_Some_2 (Loco.frequencies s) i) as [b ->]; [lia|].
  split; reflexivity.
Qed.

Lemma restore_loop_spec (s : Loco.net) A' F' :
  length (Loco.amplitudes s) = Loco.n s -> length (Loco.frequencies s) = Loco.n s ->
  Loco.restore_loop s = (A', F') ->
  length A' = Loco.n s /\ length F' = Loco.n s /\
  forall i, (i < Loco.n s)%nat ->
    A' !! i = Some (Loco.amplitude s) /\ F' !! i = Some (Loco.base_frequency s).
Proof.
  intros HA HF Hloop. unfold Loco.restore_loop in Hloop.
  eapply (fold_insert_pair _ (fun _ => Loco.amplitude s)
              (fun _ => Loco.base_frequency s)) in Hloop as (HA' & HF' & Hget);
    [|intros A F i; reflexivity].
  split; [lia|split; [lia|]]. intros i Hi.
  rewrite (proj1 (Hget i)), (proj2 (Hget i)), existsb_seq.
  destruct (Nat.ltb_spec i (Loco.n s)); [|lia].
  destruct (lookup_lt_is_Some_2 (Loco.amplitudes s) i) as [a ->]; [lia|].
  destruct (lookup_lt_is_Some_2 (Loco.frequencies s) i) as [b ->]; [lia|].
  split; reflexivity.
Qed.

(** ** C4: turning *)

(** Claim C4. [turn_right f] / [turn_left f] clamp [f] into [0, 1]; with [c]
    the clamped value, even indices get [amplitude·(1 − 0.5·c)] and
    [base_frequency·(1 − 0.3·c)] under a right turn ([1 + …] under a left
    turn) and odd indices the opposite; the turn state records the direction
    and [c]; gait, direction and both matrices are unchanged. *)
Theorem turn_spec (f : R) (s : Loco.net) :
  length (Loco.amplitudes s) = Loco.n s ->
  length (Loco.frequencies s) = Loco.n s ->
  let c := Rmax 0 (Rmin 1 f) in
  (0 <= c <= 1 /\ (0 <= f <= 1 -> c = f)) /\
  (let s' := Loco.turn_right f s in
   Loco.turning s' = true /\ Loco.turning_direction s' = Some TurnRight /\
   Loco.turning_factor s' = c /\
   (forall i, (i < Loco.n s)%nat -> Nat.even i = true ->
      Loco.amplitudes s' !! i = Some (Loco.amplitude s * (1 - 0.5 * c)) /\
      Loco.frequencies s' !! i = Some (Loco.base_frequency s * (1 - 0.3 * c))) /\
   (forall i, (i < Loco.n s)%nat -> Nat.even i = false ->
      Loco.amplitudes s' !! i = Some (Loco.amplitude s * (1 + 0.5 * c)) /\
      Loco.frequencies s' !! i = Some (Loco.base_frequency s * (1 + 0.3 * c))) /\
   Loco.current_gait s' = Loco.current_gait s /\
   Loco.direction_phase s' = Loco.direction_phase s /\
   Loco.coupling_weights s' = Loco.coupling_weights s /\
   Loco.phase_biases s' = Loco.phase_biases s) /\
  (let s' := Loco.turn_left f s in
   Loco.turning s' = true /\ Loco.turning_direction s' = Some TurnLeft /\
   Loco.turning_factor s' = c /\
   (forall i, (i < Loco.n s)%nat -> Nat.even i = true ->
      Loco.amplitudes s' !! i = Some (Loco.amplitude s * (1 + 0.5 * c)) /\
      Loco.frequencies s' !! i = Some (Loco.base_frequency s * (1 + 0.3 * c))) /\
   (forall i, (i < Loco.n s)%nat -> Nat.even i = false ->
      Loco.amplitudes s' !! i = Some (Loco.amplitude s * (1 - 0.5 * c)) /\
      Loco.frequencies s' !! i = Some (Loco.base_frequency s * (1 - 0.3 * c))) /\
   Loco.current_gait s' = Loco.current_gait s /\
   Loco.direction_phase s' = Loco.direction_phase s /\
   Loco.coupling_weights s' = Loco.coupling_weights s /\
   Loco.phase_biases s' = Loco.phase_biases s).
Proof.
  intros HA HF c. split; [|split].
  - subst c. unfold Rmax, Rmin.
    destruct (Rle_dec 1 f), (Rle_dec 0 _); split; try lra.
    all: intros; destruct (Rle_dec 1 f); lra.
  - unfold Loco.turn_right. fold (Loco.clamp01 f).
    destruct (Loco.turn_loop s _ _ _ _) as [A' F'] eqn:E.
    destruct (turn_loop_spec _ _ _ _ _ _ _ HA HF E) as (_ & _ & Hget).
    simpl. refine (conj eq_refl (conj eq_refl (conj eq_refl (conj _ (conj _
      (conj eq_refl (conj eq_refl (conj eq_refl eq_refl)))))))).
    all: intros i Hi He; rewrite (proj1 (Hget i Hi)), (proj2 (Hget i Hi)), He;
      unfold Loco.clamp01; subst c; split; f_equal; apply Rmult_eq_compat_l; lra.
  - unfold Loco.turn_left. fold (Loco.clamp01 f).
    destruct (Loco.turn_loop s _ _ _ _) as [A' F'] eqn:E.
    destruct (turn_loop_spec _ _ _ _ _ _ _ HA HF E) as (_ & _ & Hget).
    simpl. refine (conj eq_refl (conj eq_refl (conj eq_refl (conj _ (conj _
      (conj eq_refl (conj eq_refl (conj eq_refl eq_refl)))))))).
    all: intros i Hi He; rewrite (proj1 (Hget i Hi)), (proj2 (Hget i Hi)), He;
      unfold Loco.clamp01; subst c; split; f_equal; apply Rmult_eq_compat_l; lra.
Qed.

(** ** The gait/direction recursion of [cpg_loconetwork.py] *)

(** With a non-zero direction and [reset_direction=False], the gait setters
    and [_update_phase_relationships] call each other until the recursion
    budget is exhausted, whatever the budget. *)
Lemma loco_direction_recursion fuel :
  (forall cs s, nonzero (Loco.direction_phase s) = true ->
     snd (Loco.set_tripod_gait fuel cs false s) = RecursionError) /\
  (forall cs s, nonzero (Loco.direction_phase s) = true ->
     snd (Loco.set_wave_gait fuel cs false s) = RecursionError) /\
  (forall s, nonzero (Loco.direction_phase s) = true ->
     snd (Loco.update_phase_relationships fuel s) = RecursionError).
Proof.
  induction fuel as [|k (IHt & IHw & IHu)].
  - repeat split; reflexivity.
  - split; [|split].
    + intros cs s Hd. simpl.
      destruct (gait_loop _ cs tripod_bias) as [W P]. simpl.
      rewrite Hd. apply IHu. exact Hd.
    + intros cs s Hd. simpl.
      destruct (gait_loop _ cs _) as [W P]. simpl.
      rewrite Hd. apply IHu. exact Hd.
    + intros s Hd. simpl. destruct (Loco.current_gait s).
      * pose proof (IHt 1 s Hd) as Hr.
        destruct (Loco.set_tripod_gait k 1 false s) as [s1 r]. simpl in Hr.
        subst r. reflexivity.
      * pose proof (IHw 1 s Hd) as Hr.
        destruct (Loco.set_wave_gait k 1 false s) as [s1 r]. simpl in Hr.
        subst r. reflexivity.
Qed.

(** [reset_direction=False] never changes [direction_phase], also when the
    call ends in [RecursionError]. *)
Lemma loco_direction_kept fuel :
  (forall cs s, Loco.direction_phase (fst (Loco.set_tripod_gait fuel cs false s))
                = Loco.direction_phase s) /\
  (forall cs s, Loco.direction_phase (fst (Loco.set_wave_gait fuel cs false s))
                = Loco.direction_phase s) /\
  (forall s, Loco.direction_phase (fst (Loco.update_phase_relationships fuel s))
             = Loco.direction_phase s).
Proof.
  induction fuel as [|k (IHt & IHw & IHu)].
  - repeat split; reflexivity.
  - split; [|split].
    + intros cs s. simpl.
      destruct (gait_loop _ cs tripod_bias) as [W P]. simpl.
      destruct (nonzero _); [rewrite IHu|]; reflexivity.
    + intros cs s. simpl.
      destruct (gait_loop _ cs _) as [W P]. simpl.
      destruct (nonzero _); [rewrite IHu|]; reflexivity.
    + intros s. simpl. destruct (Loco.current_gait s).
      * pose proof (IHt 1 s) as Hd.
        destruct (Loco.set_tripod_gait k 1 false s) as [s1 r]. simpl in Hd.
        destruct r; [destruct (nonzero _)|]; exact Hd.
      * pose proof (IHw 1 s) as Hd.
        destruct (Loco.set_wave_gait k 1 false s) as [s1 r]. simpl in Hd.
        destruct r; [destruct (nonzero _)|]; exact Hd.
Qed.

(** ** C1: [set_backward] *)

(** Claim C1 (code_bug). In [cpg_loconetwork.py], [set_backward(True)] never
    returns normally: for every recursion budget and every network it ends in
    [RecursionError]; once it has run, [direction_phase] is left at π. *)
Theorem set_backward_true_recursion_error (fuel : nat) (s : Loco.net) :
  snd (Loco.set_backward fuel true s) = RecursionError /\
  Loco.direction_phase (fst (Loco.set_backward (S fuel) true s)) = PI.
Proof.
  split.
  - destruct fuel as [|k]; [reflexivity|].
    apply (loco_direction_recursion k). simpl. apply nonzero_PI.
  - simpl. rewrite (proj2 (proj2 (loco_direction_kept fuel))). reflexivity.
Qed.

(** In [cpg_network_loco.py] the direction setter terminates, but it rebuilds
    the coupling matrix with the default strength 1.0, whatever strength the
    gait was set with. *)
Lemma netloco_set_backward_coupling (b : bool) (s : Loco.net) i j :
  (i < Loco.n s)%nat -> (j < Loco.n s)%nat -> i <> j ->
  mat_get (Loco.coupling_weights (NetLoco.set_backward b s)) i j = 1.
Proof.
  intros Hi Hj Hij. unfold NetLoco.set_backward, NetLoco.update_phase_relationships.
  simpl. destruct (Loco.current_gait s); unfold NetLoco.set_tripod_gait, NetLoco.set_wave_gait.
  - destruct (gait_loop _ 1 tripod_bias) as [W P] eqn:E. simpl.
    destruct (gait_loop_spec _ _ _ _ _ E) as (_ & _ & Hget).
    destruct (Hget i j Hi Hj) as [HW _]. apply Nat.eqb_neq in Hij. rewrite Hij in HW.
    destruct (nonzero _); exact HW.
  - destruct (gait_loop _ 1 _) as [W P] eqn:E. simpl.
    destruct (gait_loop_spec _ _ _ _ _ E) as (_ & _ & Hget).
    destruct (Hget i j Hi Hj) as [HW _]. apply Nat.eqb_neq in Hij. rewrite Hij in HW.
    destruct (nonzero _); exact HW.
Qed.

(** ** C2: gait switch while moving backward *)

(** Claim C2 (code_bug). In [cpg_loconetwork.py], applying either gait with
    [reset_direction=False] while [direction_phase = π] never returns
    normally: it ends in [RecursionError] for every recursion budget. *)
Theorem gait_switch_backward_recursion_error (fuel : nat) (cs : R) (s : Loco.net) :
  Loco.direction_phase s = PI ->
  snd (Loco.set_tripod_gait fuel cs false s) = RecursionError /\
  snd (Loco.set_wave_gait fuel cs false s) = RecursionError.
Proof.
  intros Hd. assert (Hnz : nonzero (Loco.direction_phase s) = true)
    by (rewrite Hd; apply nonzero_PI).
  split; apply (loco_direction_recursion fuel); exact Hnz.
Qed.

(** ** C5: [update(0)] *)

(** Claim C5. If the solver returns its initial state for a zero time span
    (the solution at the initial time), [update] with [dt = 0] leaves the
    whole network unchanged and returns the x-components of the stored
    state, which are exactly what the immediately preceding tick returned. *)
Theorem update_dt_zero_noop
    (odeint : (list R -> list R) -> list R -> R -> list R) :
  (forall f y, odeint f y 0 = y) ->
  (forall s now,
     Loco.update odeint s now (Some 0) =
     (s, map (fun i => nth (2 * i) (Loco.state s) 0) (seq 0 (Loco.n s)))) /\
  (forall s now dt now',
     Loco.update odeint (fst (Loco.update odeint s now dt)) now' (Some 0) =
     (fst (Loco.update odeint s now dt), snd (Loco.update odeint s now dt))).
Proof.
  intros Hzero.
  assert (H0 : forall s now,
     Loco.update odeint s now (Some 0) =
     (s, map (fun i => nth (2 * i) (Loco.state s) 0) (seq 0 (Loco.n s)))).
  { intros s now. unfold Loco.update. rewrite Hzero. destruct s; reflexivity. }
  split; [exact H0|].
  intros s now dt now'. rewrite H0. f_equal.
  unfold Loco.update. destruct dt; reflexivity.
Qed.

Lemma update_dt_zero_noop_witness :
  (forall f y, euler_step f y 0 = y) /\
  fst (Loco.update euler_step sample_net 0 (Some 0)) = sample_net.
Proof.
  assert (Hz : forall f y, euler_step f y 0 = y).
  { intros f y. unfold euler_step. apply list_eq. intros k.
    rewrite list_lookup_imap. destruct (y !! k); simpl; [f_equal; lra|reflexivity]. }
  split; [exact Hz|].
  rewrite (proj1 (update_dt_zero_noop euler_step Hz) sample_net 0). reflexivity.
Defined.

(** ** C6: no validation of [n] and [dt] *)

(** A forward gait call returns normally after one frame. *)
Lemma loco_tripod_forward (k : nat) (cs : R) (rd : bool) (s : Loco.net) (W P : mat) :
  (if rd then 0 else Loco.direction_phase s) = 0 ->
  gait_loop (Loco.n s) cs tripod_bias = (W, P) ->
  Loco.set_tripod_gait (S k) cs rd s =
  (Loco.with_matrices W P (Loco.with_gait Tripod 0 s), Ok).
Proof.
  intros Hd E. simpl. rewrite Hd, E. simpl. rewrite nonzero_0. reflexivity.
Qed.

(** Claim C6, refuted: constructing a network with [n = 0] is not rejected;
    it returns normally (here with Python's default recursion limit). *)
Lemma init_zero_oscillators_accepted :
  snd (Loco.init 1000 0 1 1 1 0) = Ok /\ Loco.n (fst (Loco.init 1000 0 1 1 1 0)) = 0%nat.
Proof.
  unfold Loco.init.
  rewrite (loco_tripod_forward 999 1 true _ (@nil (list R)) (@nil (list R)));
    [split; reflexivity | reflexivity | reflexivity].
Qed.

(** Claim C6, as the code does it: there is no validation. Construction with
    [n = 0] returns normally, with an empty state vector and empty
    matrices and amplitude/frequency arrays; [update] with an explicit [dt]
    (negative included) stores the solver's result for that [dt], keeps
    every other field, and returns normally. *)
Theorem no_input_validation (fuel : nat) (A f mu now : R) :
  (let '(s, r) := Loco.init (S fuel) 0 A f mu now in
   r = Ok /\ Loco.n s = 0%nat /\ Loco.state s = [] /\
   Loco.coupling_weights s = [] /\ Loco.phase_biases s = [] /\
   Loco.amplitudes s = [] /\ Loco.frequencies s = []) /\
  (forall odeint s now' dt,
     Loco.update odeint s now' (Some dt) =
     (Loco.with_state (odeint (Loco.equations s) (Loco.state s) dt)
        (Loco.last_update_time s) s,
      map (fun i => nth (2 * i) (odeint (Loco.equations s) (Loco.state s) dt) 0)
        (seq 0 (Loco.n s)))).
Proof.
  split.
  - unfold Loco.init. rewrite (loco_tripod_forward fuel 1 true _ (@nil (list R)) (@nil (list R))) by reflexivity.
    repeat split.
  - intros odeint s now' dt. reflexivity.
Qed.

(** ** C7: [reset] *)

Lemma fold_insert_even (v : R) (l : list nat) (st : list R) k :
  fold_left (fun st i => <[(2 * i)%nat := v]> st) l st !! k =
  if existsb (fun i => Nat.eqb k (2 * i)) l then (fun _ => v) <$> st !! k
  else st !! k.
Proof.
  revert st. induction l as [|j l IH]; intros st; cbn [fold_left existsb];
    [reflexivity|].
  rewrite IH, !insert_lookup_fmap.
  destruct (Nat.eqb k (2 * j)), (existsb _ l); cbn [orb];
    destruct (st !! k); reflexivity.
Qed.

(** The seed: [x_i = 0.1], [y_i = 0] for every oscillator. *)
Lemma seed_state_spec n :
  length (seed_state n) = (2 * n)%nat /\
  forall i, (i < n)%nat ->
    seed_state n !! (2 * i)%nat = Some 0.1 /\ seed_state n !! (2 * i + 1)%nat = Some 0.
Proof.
  split.
  - unfold seed_state. rewrite <- (repeat_length 0 (2 * n)) at 2.
    generalize (repeat 0 (2 * n)) as st.
    induction (seq 0 n) as [|j l IH]; intros st; cbn [fold_left];
      [|rewrite IH, length_insert]; reflexivity.
  - intros i Hi. unfold seed_state. rewrite !fold_insert_even. split.
    + replace (existsb _ (seq 0 n)) with true.
      * rewrite lookup_repeat_lt by lia. reflexivity.
      * symmetry. apply existsb_exists. exists i. split; [apply in_seq; lia|].
        apply Nat.eqb_refl.
    + replace (existsb _ (seq 0 n)) with false.
      * rewrite lookup_repeat_lt by lia. reflexivity.
      * symmetry. apply not_true_iff_false. intros Hex.
        apply existsb_exists in Hex as [j [_ Hj]]. apply Nat.eqb_eq in Hj. lia.
Qed.

(** [reset()] of [cpg_loconetwork.py] does what the spec asks: reseeds the
    state, restores the per-leg arrays, clears the turn state, and keeps the
    gait, the direction and both matrices. *)
Lemma loco_reset_spec (now : R) (s : Loco.net) :
  length (Loco.amplitudes s) = Loco.n s -> length (Loco.frequencies s) = Loco.n s ->
  let s' := Loco.reset now s in
  Loco.state s' = seed_state (Loco.n s) /\
  (forall i, (i < Loco.n s)%nat ->
     Loco.amplitudes s' !! i = Some (Loco.amplitude s) /\
     Loco.frequencies s' !! i = Some (Loco.base_frequency s)) /\
  Loco.turning s' = false /\ Loco.turning_direction s' = None /\
  Loco.turning_factor s' = 0 /\
  Loco.current_gait s' = Loco.current_gait s /\
  Loco.direction_phase s' = Loco.direction_phase s /\
  Loco.coupling_weights s' = Loco.coupling_weights s /\
  Loco.phase_biases s' = Loco.phase_biases s.
Proof.
  intros HA HF s'. subst s'. unfold Loco.reset.
  destruct (Loco.restore_loop _) as [A' F'] eqn:E.
  destruct (restore_loop_spec _ _ _ HA HF E) as (_ & _ & Hget).
  simpl. refine (conj eq_refl (conj _ (conj eq_refl (conj eq_refl (conj eq_refl
    (conj eq_refl (conj eq_refl (conj eq_refl eq_refl)))))))).
  exact Hget.
Qed.

Lemma turn_right_turning (f : R) (s : Loco.net) :
  Loco.turning (Loco.turn_right f s) = true /\
  Loco.turning_direction (Loco.turn_right f s) = Some TurnRight.
Proof.
  unfold Loco.turn_right. destruct (Loco.turn_loop _ _ _ _ _). split; reflexivity.
Qed.

(** Claim C7 (code_bug). The copy of [reset()] in [ledlocotest.py] keeps the
    turn state: the [turning], [turning_direction] and [turning_factor]
    fields are those from before the call, so after [turn_right(0.5)] a
    reset network still reports a right turn. *)
Theorem ledloco_reset_keeps_turning (now : R) (s : Loco.net) :
  Loco.turning (LedLoco.reset now s) = Loco.turning s /\
  Loco.turning_direction (LedLoco.reset now s) = Loco.turning_direction s /\
  Loco.turning_factor (LedLoco.reset now s) = Loco.turning_factor s /\
  Loco.turning (LedLoco.reset now (Loco.turn_right 0.5 sample_net)) = true /\
  Loco.turning_direction (LedLoco.reset now (Loco.turn_right 0.5 sample_net))
    = Some TurnRight.
Proof.
  assert (H : forall s, Loco.turning (LedLoco.reset now s) = Loco.turning s /\
     Loco.turning_direction (LedLoco.reset now s) = Loco.turning_direction s /\
     Loco.turning_factor (LedLoco.reset now s) = Loco.turning_factor s).
  { intros s0. unfold LedLoco.reset. destruct (Loco.restore_loop _).
    repeat split; reflexivity. }
  destruct (H s) as (H1 & H2 & H3).
  destruct (H (Loco.turn_right 0.5 sample_net)) as (H4 & H5 & _).
  destruct (turn_right_turning 0.5 sample_net) as [H6 H7].
  repeat split; congruence.
Qed.

(** ** C10: the extended network refines the plain one *)

Lemma fold_left_ext_in {A B} (f g : A -> B -> A) (l : list B) (a : A) :
  (forall acc x, In x l -> f acc x = g acc x) ->
  fold_left f l a = fold_left g l a.
Proof.
  revert a. induction l as [|x l IH]; intros a Hfg; simpl; [reflexivity|].
  rewrite (Hfg a x) by (left; reflexivity). apply IH.
  intros acc y Hy. apply Hfg. right. exact Hy.
Qed.

Lemma equations_agree (s : Loco.net) (p : Plain.net) :
  plain_agrees s p -> forall st, Loco.equations s st = Plain.equations p st.
Proof.
  intros (Hn & Ha & Hw & Hmu & HW & HP & Hf & Hamp) st.
  unfold Loco.equations, Plain.equations. rewrite Hn, HW, HP, Ha, Hw, Hmu.
  apply fold_left_ext_in. intros der i Hi. apply in_seq in Hi.
  rewrite (Hf i), (Hamp i) by lia. reflexivity.
Qed.

Lemma update_agree odeint (s : Loco.net) (p : Plain.net) now dt :
  plain_agrees s p -> Plain.state p = Loco.state s ->
  Plain.last_update_time p = Loco.last_update_time s ->
  plain_agrees (fst (Loco.update odeint s now dt)) (fst (Plain.update odeint p now dt)) /\
  Plain.state (fst (Plain.update odeint p now dt)) = Loco.state (fst (Loco.update odeint s now dt)) /\
  Plain.last_update_time (fst (Plain.update odeint p now dt)) =
    Loco.last_update_time (fst (Loco.update odeint s now dt)) /\
  snd (Plain.update odeint p now dt) = snd (Loco.update odeint s now dt).
Proof.
  intros Hag Hst Hlast.
  assert (Heq : Loco.equations s = Plain.equations p)
    by (apply functional_extensionality; apply equations_agree; exact Hag).
  destruct Hag as (Hn & Ha & Hw & Hmu & HW & HP & Hf & Hamp).
  unfold Loco.update, Plain.update. rewrite Heq, Hst, Hlast, Hn.
  destruct dt; simpl; repeat split; auto.
Qed.

(** Claim C10. When every per-leg frequency and amplitude of the extended
    network equals its base value, its derivative function coincides
    pointwise with the plain network's (same size, amplitude, convergence
    rate, [omega = 2π·frequency], matrices), and from equal state vectors the
    two [update] operations, ticked with the same sequence of calls, return
    the same outputs and reach equal state vectors. *)
Theorem loco_refines_plain odeint (s : Loco.net) (p : Plain.net) :
  plain_agrees s p ->
  (forall st, Loco.equations s st = Plain.equations p st) /\
  (Plain.state p = Loco.state s ->
   Plain.last_update_time p = Loco.last_update_time s ->
   forall ticks,
     snd (loco_run odeint s ticks) = snd (plain_run odeint p ticks) /\
     Loco.state (fst (loco_run odeint s ticks)) =
       Plain.state (fst (plain_run odeint p ticks))).
Proof.
  intros Hag. split; [apply equations_agree; exact Hag|].
  intros Hst Hlast ticks. revert s p Hag Hst Hlast.
  induction ticks as [|[now dt] rest IH]; intros s p Hag Hst Hlast; simpl.
  - split; [reflexivity|symmetry; exact Hst].
  - destruct (update_agree odeint s p now dt Hag Hst Hlast) as (Hag1 & Hst1 & Hl1 & Hout).
    destruct (Loco.update odeint s now dt) as [s1 o1].
    destruct (Plain.update odeint p now dt) as [p1 o2]. simpl in *.
    destruct (IH s1 p1 Hag1 Hst1 Hl1) as [Houts Hfin].
    destruct (loco_run odeint s1 rest) as [s2 os1].
    destruct (plain_run odeint p1 rest) as [p2 os2]. simpl in *.
    split; [congruence|exact Hfin].
Qed.

Lemma loco_refines_plain_witness :
  plain_agrees sample_net sample_plain /\
  (forall st, Loco.equations sample_net st = Plain.equations sample_plain st).
Proof.
  assert (Hag : plain_agrees sample_net sample_plain).
  { repeat split; intros i Hi; destruct i as [|[|i]]; try reflexivity;
      simpl in Hi; lia. }
  split; [exact Hag|].
  exact (proj1 (loco_refines_plain euler_step sample_net sample_plain Hag)).
Defined.

(** ** C8: the matrix invariant *)

Lemma fold_left_preserve {A B} (Q : A -> Prop) (f : A -> B -> A) (l : list B) (a : A) :
  (forall acc x, In x l -> Q acc -> Q (f acc x)) -> Q a -> Q (fold_left f l a).
Proof.
  revert a. induction l as [|x l IH]; intros a Hf Ha; simpl; [exact Ha|].
  apply IH; [intros acc y Hy; apply Hf; right; exact Hy|].
  apply Hf; [left; reflexivity|exact Ha].
Qed.

Lemma py_mod_range x y : 0 < y -> 0 <= py_mod x y < y.
Proof.
  intros Hy. unfold py_mod.
  destruct (base_Int_part (x / y)) as [H1 H2].
  set (k := IZR (Int_part (x / y))) in *.
  assert (Hx : y * (x / y) = x) by (field; lra).
  assert (y * k <= y * (x / y)) by (apply Rmult_le_compat_l; lra).
  assert (y * (x / y) < y * (k + 1)) by (apply Rmult_lt_compat_l; lra).
  lra.
Qed.

Lemma tripod_bias_range i j : 0 <= tripod_bias i j < 2 * PI.
Proof.
  pose proof PI_RGT_0. unfold tripod_bias.
  destruct (Nat.eqb _ _); lra.
Qed.

Lemma wave_bias_range n i j : (0 < n)%nat -> 0 <= wave_bias n i j < 2 * PI.
Proof.
  intros Hn0. pose proof PI_RGT_0 as Hpi. unfold wave_bias.
  set (k := Z.modulo (Z.of_nat j - Z.of_nat i) (Z.of_nat n)).
  assert (Hk : (0 <= k < Z.of_nat n)%Z) by (apply Z.mod_pos_bound; lia).
  assert (Hn : 0 < INR n) by (apply lt_0_INR; exact Hn0).
  assert (Hk0 : 0 <= IZR k) by (apply IZR_le; lia).
  assert (Hkn : IZR k < INR n) by (rewrite INR_IZR_INZ; apply IZR_lt; lia).
  replace (2 * PI / INR n * IZR k) with (2 * PI * (IZR k / INR n)) by (field; lra).
  assert (Hq0 : 0 <= IZR k / INR n)
    by (unfold Rdiv; apply Rmult_le_pos; [lra|left; apply Rinv_0_lt_compat; lra]).
  assert (Hq1 : IZR k / INR n < 1).
  { apply (Rmult_lt_reg_r (INR n)); [lra|].
    unfold Rdiv. rewrite Rmult_assoc, Rinv_l, Rmult_1_r by lra. lra. }
  split; [apply Rmult_le_pos; lra|].
  assert (2 * PI * (IZR k / INR n) < 2 * PI * 1) by (apply Rmult_lt_compat_l; lra).
  lra.
Qed.

Lemma mat_inv_gait n cs pb W P :
  gait_loop n cs pb = (W, P) -> 0 <= cs ->
  (forall i j, (i < n)%nat -> (j < n)%nat -> i <> j -> 0 <= pb i j < 2 * PI) ->
  mat_inv n W P.
Proof.
  intros E Hcs Hpb. pose proof PI_RGT_0.
  destruct (gait_loop_spec _ _ _ _ _ E) as (HW & HP & Hget).
  split; [exact HW|split; [exact HP|split; [|split]]].
  - intros i Hi. rewrite (proj1 (Hget i i Hi Hi)), (proj2 (Hget i i Hi Hi)), Nat.eqb_refl.
    split; reflexivity.
  - intros i j Hi Hj Hij. rewrite (proj1 (Hget i j Hi Hj)).
    apply Nat.eqb_neq in Hij. rewrite Hij. exact Hcs.
  - intros i j Hi Hj. rewrite (proj2 (Hget i j Hi Hj)).
    destruct (Nat.eqb_spec i j); [lra|]. apply Hpb; auto.
Qed.

(** The direction shift keeps the phase matrix n×n, its diagonal 0 and
    its entries in [0, 2π). *)
Lemma mat_inv_shift n d W P : mat_inv n W P -> mat_inv n W (shift_phases n d P).
Proof.
  intros (HW & HP & Hdiag & HWpos & HPr).
  pose proof PI_RGT_0 as Hpi.
  set (Q := fun M => mat_shape n M /\ (forall i, (i < n)%nat -> mat_get M i i = 0) /\
                     (forall i j, (i < n)%nat -> (j < n)%nat -> 0 <= mat_get M i j < 2 * PI)).
  assert (HQ : Q (shift_phases n d P)).
  { unfold shift_phases. apply fold_left_preserve.
    - intros M i Hi HM. apply in_seq in Hi. apply fold_left_preserve; [|exact HM].
      intros M' j Hj (HS & HD & HR). apply in_seq in Hj.
      destruct (Nat.eqb_spec i j) as [Hij|Hij]; [split; auto|].
      split; [apply mat_set_shape; exact HS|split].
      + intros a Ha. rewrite (mat_set_get n M' i j _ a a HS) by lia.
        destruct (Nat.eqb_spec a i), (Nat.eqb_spec a j); simpl; try (exfalso; lia); auto.
      + intros a b Ha Hb. rewrite (mat_set_get n M' i j _ a b HS) by lia.
        destruct (Nat.eqb a i && Nat.eqb b j); [|auto].
        apply py_mod_range. lra.
    - split; [exact HP|split]; [intros i Hi; apply Hdiag; exact Hi|exact HPr]. }
  destruct HQ as (HS & HD & HR).
  split; [exact HW|split; [exact HS|split; [|split]]]; auto.
  intros i Hi. split; [apply Hdiag; exact Hi|apply HD; exact Hi].
Qed.

(** The gait setters and [_update_phase_relationships] keep the invariant
    whatever the recursion budget, when the coupling strength is ≥ 0;
    [_update_phase_relationships] itself passes 1.0. *)
Lemma loco_gait_inv (fuel : nat) :
  (forall cs rd s, 0 <= cs -> matrix_invariant s ->
     matrix_invariant (fst (Loco.set_tripod_gait fuel cs rd s))) /\
  (forall cs rd s, 0 <= cs -> matrix_invariant s ->
     matrix_invariant (fst (Loco.set_wave_gait fuel cs rd s))) /\
  (forall s, matrix_invariant s ->
     matrix_invariant (fst (Loco.update_phase_relationships fuel s))).
Proof.
  induction fuel as [|k IH].
  { split; [|split]; intros; simpl; assumption. }
  destruct IH as (IHt & IHw & IHu). split; [|split].
  - intros cs rd s Hcs _. cbn [Loco.set_tripod_gait].
    destruct (gait_loop _ cs tripod_bias) as [W P] eqn:E.
    assert (HI : mat_inv (Loco.n s) W P).
    { eapply mat_inv_gait; [exact E|exact Hcs|]. intros; apply tripod_bias_range. }
    destruct (nonzero _); [apply IHu|]; exact HI.
  - intros cs rd s Hcs _. cbn [Loco.set_wave_gait].
    destruct (gait_loop _ cs (wave_bias _)) as [W P] eqn:E.
    assert (HI : mat_inv (Loco.n s) W P).
    { eapply mat_inv_gait; [exact E|exact Hcs|].
      intros i j Hi _ _. apply wave_bias_range.
      cbn [Loco.n Loco.with_gait] in Hi |- *. lia. }
    destruct (nonzero _); [apply IHu|]; exact HI.
  - intros s Hs. cbn [Loco.update_phase_relationships].
    destruct (Loco.current_gait s);
      [destruct (Loco.set_tripod_gait k 1 false s) as [s1 r] eqn:E
      |destruct (Loco.set_wave_gait k 1 false s) as [s1 r] eqn:E];
      (assert (H1 : matrix_invariant s1)
         by (change s1 with (fst (s1, r)); rewrite <- E;
             first [apply IHt | apply IHw]; [lra|exact Hs]));
      (destruct r; [|exact H1]);
      (destruct (nonzero (Loco.direction_phase s1)); [|exact H1]);
      exact (mat_inv_shift (Loco.n s1) (Loco.direction_phase s1)
               (Loco.coupling_weights s1) (Loco.phase_biases s1) H1).
Qed.

Lemma mat_inv_zeros n : mat_inv n (mat_zeros n) (mat_zeros n).
Proof.
  pose proof PI_RGT_0.
  split; [apply mat_zeros_shape|split; [apply mat_zeros_shape|split; [|split]]];
    intros; rewrite ?mat_zeros_get; lra.
Qed.

Lemma init_inv fuel n_osc A f mu now :
  matrix_invariant (fst (Loco.init fuel n_osc A f mu now)).
Proof.
  unfold Loco.init. apply (proj1 (loco_gait_inv fuel)); [lra|].
  apply mat_inv_zeros.
Qed.

Lemma update_inv odeint s now dt :
  matrix_invariant s -> matrix_invariant (fst (Loco.update odeint s now dt)).
Proof.
  intros Hs. unfold Loco.update.
  destruct (match dt with Some d => _ | None => _ end) as [d last].
  exact Hs.
Qed.

Lemma backward_inv fuel b s :
  matrix_invariant s -> matrix_invariant (fst (Loco.set_backward fuel b s)).
Proof.
  intros Hs. destruct fuel as [|k]; [exact Hs|].
  apply (proj2 (proj2 (loco_gait_inv k))). exact Hs.
Qed.

Lemma turn_stop_reset_inv f now s :
  matrix_invariant s ->
  matrix_invariant (Loco.turn_right f s) /\ matrix_invariant (Loco.turn_left f s) /\
  matrix_invariant (Loco.stop_turning s) /\ matrix_invariant (Loco.reset now s).
Proof.
  intros Hs. unfold Loco.turn_right, Loco.turn_left, Loco.stop_turning, Loco.reset.
  destruct (Loco.turn_loop s _ _ _ _) as [a1 f1].
  destruct (Loco.turn_loop s _ _ _ _) as [a2 f2].
  destruct (Loco.restore_loop s) as [a3 f3].
  destruct (Loco.restore_loop _) as [a4 f4].
  refine (conj _ (conj _ (conj _ _))); exact Hs.
Qed.

(** Claim C8, counterexample. [coupling_strength] is any float: building
    a two-leg network and then applying the tripod gait with coupling
    strength −1 reaches a state whose coupling weight (0, 1) is −1. *)
Lemma negative_coupling_breaks_invariant :
  ~ (forall odeint s, reachable odeint (fun _ => True) s -> matrix_invariant s).
Proof.
  intros H.
  destruct (gait_loop 2 1 tripod_bias) as [W0 P0] eqn:E0.
  assert (Hs0 : Loco.init 1 2 1 1 1 0 =
                (Loco.with_matrices W0 P0 (Loco.with_gait Tripod 0 sample_net), Ok)).
  { unfold Loco.init. fold sample_net.
    apply (loco_tripod_forward 0 1 true sample_net W0 P0); [reflexivity|exact E0]. }
  set (s0 := Loco.with_matrices W0 P0 (Loco.with_gait Tripod 0 sample_net)) in Hs0.
  assert (Hn : Loco.n s0 = 2%nat) by reflexivity.
  destruct (gait_loop (Loco.n s0) (-1) tripod_bias) as [W1 P1] eqn:E1.
  pose proof (H euler_step _
    (reach_tripod euler_step (fun _ => True) 1 (-1) true _ I
       (reach_init euler_step (fun _ => True) 1 2 1 1 1 0))) as Hinv.
  rewrite Hs0 in Hinv. cbn [fst] in Hinv.
  rewrite (loco_tripod_forward 0 (-1) true s0 W1 P1 eq_refl E1) in Hinv.
  cbn [fst] in Hinv.
  destruct Hinv as (_ & _ & _ & Hpos & _).
  specialize (Hpos 0%nat 1%nat).
  change (Loco.n (Loco.with_matrices W1 P1 (Loco.with_gait Tripod 0 s0))) with (Loco.n s0) in Hpos.
  change (Loco.coupling_weights (Loco.with_matrices W1 P1 (Loco.with_gait Tripod 0 s0)))
    with W1 in Hpos.
  rewrite Hn in Hpos, E1.
  destruct (gait_loop_spec _ _ _ _ _ E1) as (_ & _ & Hget).
  rewrite (proj1 (Hget 0%nat 1%nat ltac:(lia) ltac:(lia))) in Hpos.
  simpl in Hpos. specialize (Hpos ltac:(lia) ltac:(lia) ltac:(lia)). lra.
Qed.

(** Claim C8, amended. When every coupling strength passed to a gait
    setter is ≥ 0, every reachable network has n×n coupling and phase-bias
    matrices with zero diagonal, coupling weights ≥ 0 and phase biases in
    [0, 2π). *)
Theorem matrix_invariant_reachable odeint (cs_ok : R -> Prop) :
  (forall cs, cs_ok cs -> 0 <= cs) ->
  forall s, reachable odeint cs_ok s -> matrix_invariant s.
Proof.
  intros Hcs s Hr. induction Hr.
  - apply init_inv.
  - apply update_inv; assumption.
  - apply (proj1 (loco_gait_inv fuel)); [apply Hcs|]; assumption.
  - apply (proj1 (proj2 (loco_gait_inv fuel))); [apply Hcs|]; assumption.
  - apply backward_inv; assumption.
  - apply (turn_stop_reset_inv f 0 s IHHr).
  - apply (turn_stop_reset_inv f 0 s IHHr).
  - apply (turn_stop_reset_inv 0 0 s IHHr).
  - apply (turn_stop_reset_inv 0 now s IHHr).
Qed.

Lemma matrix_invariant_reachable_witness :
  (forall cs, 0 <= cs -> 0 <= cs) /\
  matrix_invariant (fst (Loco.set_backward 3 true
    (fst (Loco.init 2 2 1 1 1 0)))).
Proof.
  assert (Hcs : forall cs, 0 <= cs -> 0 <= cs) by (intros cs H; exact H).
  split; [exact Hcs|].
  apply (matrix_invariant_reachable euler_step (fun cs => 0 <= cs) Hcs).
  apply reach_backward. apply reach_init.
Defined.

(** Instances of the claims' theorems on the two-leg network. *)
Lemma gait_forward_matrices_witness :
  (1 <= 1)%nat /\ (1 <= Loco.n sample_net)%nat /\
  snd (Loco.set_tripod_gait 1 1 true sample_net) = Ok.
Proof.
  assert (Hn : (1 <= Loco.n sample_net)%nat) by (cbv [sample_net Loco.n]; lia).
  split; [lia|split; [exact Hn|]].
  destruct (Loco.set_tripod_gait 1 1 true sample_net) as [s' r] eqn:E.
  exact (proj1 (proj1 (gait_forward_matrices 1 1 true sample_net
                         (le_n 1) Hn (or_introl eq_refl)) s' r E)).
Defined.

Lemma turn_spec_witness :
  length (Loco.amplitudes sample_net) = Loco.n sample_net /\
  length (Loco.frequencies sample_net) = Loco.n sample_net /\
  Loco.turning (Loco.turn_right 0.5 sample_net) = true.
Proof.
  assert (H1 : length (Loco.amplitudes sample_net) = Loco.n sample_net) by reflexivity.
  assert (H2 : length (Loco.frequencies sample_net) = Loco.n sample_net) by reflexivity.
  split; [exact H1|split; [exact H2|]].
  destruct (turn_spec 0.5 sample_net H1 H2) as (_ & (Ht & _) & _).
  exact Ht.
Defined.

Lemma gait_switch_backward_recursion_error_witness :
  Loco.direction_phase (fst (Loco.set_backward 1 true sample_net)) = PI /\
  snd (Loco.set_wave_gait 1000 1 false (fst (Loco.set_backward 1 true sample_net)))
    = RecursionError.
Proof.
  assert (Hd : Loco.direction_phase (fst (Loco.set_backward 1 true sample_net)) = PI)
    by reflexivity.
  split; [exact Hd|].
  exact (proj2 (gait_switch_backward_recursion_error 1000 1 _ Hd)).
Defined.

(** * Further properties of the code *)

(** ** [leg_command_translator] ([ledlocotest.py]) *)

Lemma gtb_true a b : Led.gtb a b = true <-> b < a.
Proof.
  unfold Led.gtb. destruct (Rlt_dec b a); split; intros;
    first [reflexivity | discriminate | lra].
Qed.

Lemma gtb_false a b : Led.gtb a b = false <-> a <= b.
Proof.
  unfold Led.gtb. destruct (Rlt_dec b a); split; intros;
    first [reflexivity | discriminate | lra].
Qed.

Lemma collect_spec th outs : forall i acc,
  Led.collect th i outs acc =
  if existsb (fun k => Nat.leb 6 k) (active_idx th i outs) then inl Led.KeyError
  else inr (acc ++ omap Led.leg_names (active_idx th i outs)).
Proof.
  induction outs as [|o rest IH]; intros i acc; cbn [Led.collect active_idx].
  - simpl. rewrite app_nil_r. reflexivity.
  - destruct (Led.gtb o th).
    + destruct (Nat.leb_spec 6 i).
      * do 6 (destruct i as [|i]; [lia|]). reflexivity.
      * destruct i as [|[|[|[|[|[|i]]]]]]; try lia; cbn [Led.leg_names existsb];
          rewrite IH; simpl; (destruct (existsb _ _); [reflexivity|]);
          rewrite <- app_assoc; reflexivity.
    + apply IH.
Qed.

Lemma active_idx_nil th i outs :
  active_idx th i outs = [] <-> Forall (fun o => o <= th) outs.
Proof.
  revert i. induction outs as [|o rest IH]; intros i; cbn [active_idx].
  - split; intros _; [constructor|reflexivity].
  - destruct (Led.gtb o th) eqn:G; [apply gtb_true in G|apply gtb_false in G].
    + split; [discriminate|]. intros H. inversion H; subst. lra.
    + rewrite IH. split; intros H; [constructor; assumption|inversion H; assumption].
Qed.

Lemma in_active_idx th i outs k :
  In k (active_idx th i outs) <->
  (i <= k < i + length outs)%nat /\ th < nth (k - i) outs 0.
Proof.
  revert i. induction outs as [|o rest IH]; intros i; cbn [active_idx length].
  - split; [intros []|intros [H _]; lia].
  - destruct (Led.gtb o th) eqn:G; [apply gtb_true in G|apply gtb_false in G].
    + cbn [In]. rewrite IH. split.
      * intros [<-|(Hk & Hn)].
        -- split; [lia|]. rewrite Nat.sub_diag. exact G.
        -- split; [lia|]. replace (k - i)%nat with (S (k - S i)) by lia. exact Hn.
      * intros (Hk & Hn). destruct (Nat.eq_dec k i) as [->|Hne]; [left; reflexivity|right].
        split; [lia|]. replace (k - i)%nat with (S (k - S i)) in Hn by lia. exact Hn.
    + rewrite IH. split.
      * intros (Hk & Hn). split; [lia|].
        replace (k - i)%nat with (S (k - S i)) by lia. exact Hn.
      * intros (Hk & Hn). destruct (Nat.eq_dec k i) as [->|Hne].
        -- rewrite Nat.sub_diag in Hn. simpl in Hn. lra.
        -- split; [lia|]. replace (k - i)%nat with (S (k - S i)) in Hn by lia. exact Hn.
Qed.

Lemma active_idx_le th i outs : (length (active_idx th i outs) <= length outs)%nat.
Proof.
  revert i. induction outs as [|o rest IH]; intros i; cbn [active_idx length]; [lia|].
  destruct (Led.gtb o th); cbn [length]; specialize (IH (S i)); lia.
Qed.

Lemma active_idx_length th i outs :
  length (active_idx th i outs) = length outs <-> Forall (fun o => th < o) outs.
Proof.
  revert i. induction outs as [|o rest IH]; intros i; cbn [active_idx length].
  - split; intros _; [constructor|reflexivity].
  - destruct (Led.gtb o th) eqn:G; [apply gtb_true in G|apply gtb_false in G];
      cbn [length].
    + split.
      * intros H. constructor; [exact G|]. apply (IH (S i)). lia.
      * intros H. inversion H; subst. f_equal. apply (IH (S i)). assumption.
    + split.
      * intros H. pose proof (active_idx_le th (S i) rest). lia.
      * intros H. inversion H; subst. lra.
Qed.

Lemma existsb_leb_false (l : list nat) :
  existsb (fun k => Nat.leb 6 k) l = false -> Forall (fun k => (k < 6)%nat) l.
Proof.
  induction l as [|k l IH]; cbn [existsb]; intros H; [constructor|].
  apply orb_false_iff in H as [H1 H2]. apply Nat.leb_gt in H1.
  constructor; [exact H1|apply IH; exact H2].
Qed.

Lemma existsb_leb_false_2 (l : list nat) :
  Forall (fun k => (k < 6)%nat) l -> existsb (fun k => Nat.leb 6 k) l = false.
Proof.
  induction 1 as [|k l Hk _ IH]; cbn [existsb]; [reflexivity|].
  rewrite IH, orb_false_r. apply Nat.leb_gt. exact Hk.
Qed.

Lemma omap_leg_names_length (l : list nat) :
  Forall (fun k => (k < 6)%nat) l -> length (omap Led.leg_names l) = length l.
Proof.
  induction 1 as [|k l Hk _ IH]; [reflexivity|].
  destruct k as [|[|[|[|[|[|k]]]]]]; try lia; simpl; f_equal; exact IH.
Qed.

Lemma omap_leg_names_in (l : list nat) nm :
  In nm (omap Led.leg_names l) -> exists k, Led.leg_names k = Some nm.
Proof.
  induction l as [|k l IH]; simpl; [intros []|].
  destruct (Led.leg_names k) eqn:E; simpl; [|exact IH].
  intros [<-|H]; [exists k; exact E|exact (IH H)].
Qed.

Lemma concat_names_ne (l : list String.string) :
  l <> [] -> (forall nm, In nm l -> exists k, Led.leg_names k = Some nm) ->
  String.concat "," l <> "off"%string /\ String.concat "," l <> "all"%string.
Proof.
  destruct l as [|a l]; [congruence|]. intros _ H.
  destruct (H a (or_introl eq_refl)) as [k Hk].
  destruct k as [|[|[|[|[|[|k]]]]]]; simpl in Hk; try discriminate;
    injection Hk as <-; destruct l; simpl; split; discriminate.
Qed.

(** Extra. [leg_command_translator(outputs, threshold)] returns ["off"]
    exactly when no output exceeds the threshold. *)
Theorem translator_off (outputs : list R) (threshold : R) :
  Led.leg_command_translator outputs threshold = inr "off"%string <->
  Forall (fun o => o <= threshold) outputs.
Proof.
  unfold Led.leg_command_translator. rewrite collect_spec, app_nil_l.
  split.
  - destruct (existsb _ _) eqn:E; [discriminate|].
    apply existsb_leb_false in E.
    destruct (omap Led.leg_names (active_idx threshold 0 outputs)) as [|a l] eqn:Eo.
    + intros _. apply (active_idx_nil threshold 0).
      apply (f_equal length) in Eo. rewrite omap_leg_names_length in Eo by exact E.
      destruct (active_idx threshold 0 outputs); [reflexivity|discriminate].
    + assert (Hne := concat_names_ne (a :: l) ltac:(discriminate)
                 (fun nm Hin => omap_leg_names_in _ nm ltac:(rewrite Eo; exact Hin))).
      destruct (Nat.eqb _ _); intros Hr; injection Hr as Hr; [discriminate|].
      exfalso. exact (proj1 Hne Hr).
  - intros H. apply (active_idx_nil threshold 0) in H. rewrite H. reflexivity.
Qed.

(** Extra. [leg_command_translator] raises [KeyError] exactly when an output
    at an index with no leg name (6 or more) exceeds the threshold. *)
Theorem translator_key_error (outputs : list R) (threshold : R) :
  Led.leg_command_translator outputs threshold = inl Led.KeyError <->
  exists k, (6 <= k < length outputs)%nat /\ threshold < nth k outputs 0.
Proof.
  unfold Led.leg_command_translator. rewrite collect_spec.
  split.
  - destruct (existsb _ _) eqn:E; [|discriminate]. intros _.
    apply existsb_exists in E as (k & Hk & Hle). apply Nat.leb_le in Hle.
    apply in_active_idx in Hk as (Hk & Hn). rewrite Nat.sub_0_r in Hn.
    exists k. split; [lia|exact Hn].
  - intros (k & Hk & Hn).
    assert (Hin : In k (active_idx threshold 0 outputs))
      by (apply in_active_idx; rewrite Nat.sub_0_r; split; [lia|exact Hn]).
    assert (E : existsb (fun k => Nat.leb 6 k) (active_idx threshold 0 outputs) = true)
      by (apply existsb_exists; exists k; split; [exact Hin|apply Nat.leb_le; lia]).
    rewrite E. reflexivity.
Qed.

(** Extra. With six outputs (one per leg), [leg_command_translator]
    returns ["all"] exactly when every output exceeds the threshold. *)
Theorem translator_all (outputs : list R) (threshold : R) :
  length outputs = 6%nat ->
  Led.leg_command_translator outputs threshold = inr "all"%string <->
  Forall (fun o => threshold < o) outputs.
Proof.
  intros Hlen. unfold Led.leg_command_translator. rewrite collect_spec, app_nil_l.
  assert (Hb : Forall (fun k => (k < 6)%nat) (active_idx threshold 0 outputs)).
  { apply List.Forall_forall. intros k Hk. apply in_active_idx in Hk. lia. }
  rewrite (existsb_leb_false_2 _ Hb).
  pose proof (omap_leg_names_length _ Hb) as Hl.
  rewrite <- (active_idx_length threshold 0), Hlen.
  destruct (omap Led.leg_names (active_idx threshold 0 outputs)) as [|a l] eqn:Eo.
  - simpl in Hl. split; [discriminate|intros H; rewrite H in Hl; discriminate].
  - assert (Hne := concat_names_ne (a :: l) ltac:(discriminate)
               (fun nm Hin => omap_leg_names_in _ nm ltac:(rewrite Eo; exact Hin))).
    rewrite <- Hl. unfold Led.leg_names_len.
    destruct (Nat.eqb_spec (length (a :: l)) 6) as [E6|E6].
    + split; [intros _; exact E6|intros _; reflexivity].
    + split; [intros Hr; injection Hr as Hr; exfalso; exact (proj2 Hne Hr)|].
      intros H; exfalso; exact (E6 H).
Qed.

Lemma translator_all_witness :
  length [1; 1; 1; 1; 1; 1] = 6%nat /\
  Led.leg_command_translator [1; 1; 1; 1; 1; 1] 0.5 = inr "all"%string.
Proof.
  assert (Hl : length [1; 1; 1; 1; 1; 1] = 6%nat) by reflexivity.
  split; [exact Hl|]. apply (translator_all _ 0.5 Hl).
  repeat constructor; lra.
Defined.

(** ** [get_active_legs] and [HexapodController] ([ledlocotest.py]) *)

Lemma active_fold (look : nat -> option R) (v : nat -> R) th m : forall a acc,
  (forall i, (a <= i < a + m)%nat -> look i = Some (v i)) -> (a + m <= 6)%nat ->
  fold_left (Led.active_step look th) (seq a m) (inr acc) =
  inr (acc ++ omap Led.leg_names (active_idx th a (map v (seq a m)))).
Proof.
  induction m as [|m IH]; intros a acc Hl H6; cbn [seq fold_left map active_idx].
  - rewrite app_nil_r. reflexivity.
  - assert (Hs : Led.active_step look th (inr acc) a =
                 if Led.gtb (v a) th then
                   match Led.leg_names a with
                   | Some nm => inr (acc ++ [nm])
                   | None => inl Led.KeyError
                   end
                 else inr acc)
      by (unfold Led.active_step; rewrite (Hl a) by lia; reflexivity).
    rewrite Hs. destruct (Led.gtb (v a) th).
    + destruct a as [|[|[|[|[|[|a]]]]]]; try lia; cbn [Led.leg_names];
        (rewrite IH; [|intros i Hi; apply Hl; lia|lia]);
        simpl; rewrite <- app_assoc; reflexivity.
    + rewrite IH; [reflexivity|intros i Hi; apply Hl; lia|lia].
Qed.

Lemma lookup_nth_some (st : list R) k :
  (k < length st)%nat -> st !! k = Some (nth k st 0).
Proof.
  intros Hk. destruct (lookup_lt_is_Some_2 st k Hk) as [x Hx].
  rewrite Hx. f_equal. symmetry. apply nth_lookup_Some with (x := x). exact Hx.
Qed.

(** Extra. For a network of at most six legs whose state vector keeps its
    2n entries, the command string [leg_command_translator] builds from the
    outputs of [update] matches [get_active_legs] right after that update:
    [get_active_legs] does not raise, and the command is ["off"] for no
    active leg, ["all"] for six, and the comma-separated leg names
    otherwise. *)
Theorem translator_matches_active_legs odeint (s : Loco.net) now dt threshold :
  (Loco.n s <= 6)%nat ->
  (2 * Loco.n s <= length (Loco.state (fst (Loco.update odeint s now dt))))%nat ->
  exists legs,
    Led.get_active_legs threshold (fst (Loco.update odeint s now dt)) = inr legs /\
    Led.leg_command_translator (snd (Loco.update odeint s now dt)) threshold =
      inr (match legs with
           | [] => "off"%string
           | _ => if Nat.eqb (length legs) 6 then "all"%string
                  else String.concat "," legs
           end).
Proof.
  intros H6. unfold Loco.update.
  destruct (match dt with Some d => _ | None => _ end) as [d last].
  set (st := odeint (Loco.equations s) (Loco.state s) d).
  cbn [fst snd Loco.state Loco.with_state]. intros Hlen.
  set (v := fun i => nth (2 * i) st 0).
  exists (omap Led.leg_names (active_idx threshold 0 (map v (seq 0 (Loco.n s))))).
  split.
  - unfold Led.get_active_legs. cbn [Loco.state Loco.n Loco.with_state].
    rewrite (active_fold _ v threshold (Loco.n s) 0 []); [reflexivity| |lia].
    intros i Hi. apply lookup_nth_some. lia.
  - unfold Led.leg_command_translator. rewrite collect_spec.
    rewrite existsb_leb_false_2; [reflexivity|].
    apply List.Forall_forall. intros k Hk. apply in_active_idx in Hk.
    rewrite length_map, length_seq in Hk. lia.
Qed.

Lemma translator_matches_active_legs_witness :
  (Loco.n sample_net <= 6)%nat /\
  (2 * Loco.n sample_net <=
     length (Loco.state (fst (Loco.update (fun _ y _ => y) sample_net 0%R (Some 0.05%R)))))%nat /\
  exists legs,
    Led.get_active_legs 0.5 (fst (Loco.update (fun _ y _ => y) sample_net 0%R (Some 0.05%R)))
      = inr legs.
Proof.
  assert (H6 : (Loco.n sample_net <= 6)%nat) by (cbv [sample_net Loco.n]; lia).
  assert (Hl : (2 * Loco.n sample_net <=
     length (Loco.state (fst (Loco.update (fun _ y _ => y) sample_net 0%R (Some 0.05%R)))))%nat).
  { change (Loco.state (fst (Loco.update (fun _ y _ => y) sample_net 0%R (Some 0.05%R))))
      with (seed_state 2).
    rewrite (proj1 (seed_state_spec 2)). cbv [sample_net Loco.n]. lia. }
  split; [exact H6|split; [exact Hl|]].
  destruct (translator_matches_active_legs (fun _ y _ => y) sample_net 0%R (Some 0.05%R) 0.5
              H6 Hl) as (legs & Hlegs & _).
  exists legs. exact Hlegs.
Defined.

(** Extra. Right after [reset()] of [ledlocotest.py] on a network of at
    most six legs, no leg is active for any threshold of at least 0.1 (every
    x-component is 0.1): [get_active_legs] returns the empty list. *)
Theorem led_reset_no_active_legs (now threshold : R) (s : Loco.net) :
  (Loco.n s <= 6)%nat -> 0.1 <= threshold ->
  Led.get_active_legs threshold (LedLoco.reset now s) = inr [].
Proof.
  intros H6 Hth. unfold LedLoco.reset.
  destruct (Loco.restore_loop _) as [amps freqs].
  unfold Led.get_active_legs. cbn [Loco.state Loco.n Loco.with_state].
  destruct (seed_state_spec (Loco.n s)) as [_ Hseed].
  rewrite (active_fold _ (fun _ => 0.1) threshold (Loco.n s) 0 []);
    [|intros i Hi; apply (proj1 (Hseed i ltac:(lia)))|lia].
  replace (active_idx threshold 0 (map (fun _ => 0.1) (seq 0 (Loco.n s)))) with (@nil nat);
    [reflexivity|].
  symmetry. apply active_idx_nil. apply List.Forall_forall.
  intros o Ho. apply in_map_iff in Ho as (i & <- & _). exact Hth.
Qed.

Lemma led_reset_no_active_legs_witness :
  (Loco.n sample_net <= 6)%nat /\ 0.1 <= 0.5 /\
  Led.get_active_legs 0.5 (LedLoco.reset 0 sample_net) = inr [].
Proof.
  assert (H6 : (Loco.n sample_net <= 6)%nat) by (cbv [sample_net Loco.n]; lia).
  assert (Ht : 0.1 <= 0.5) by lra.
  split; [exact H6|split; [exact Ht|]].
  exact (led_reset_no_active_legs 0 0.5 sample_net H6 Ht).
Defined.

Lemma filter_all {A} (f : A -> bool) (l : list A) :
  (forall x, In x l -> f x = true) -> List.filter f l = l.
Proof.
  induction l as [|a l IH]; simpl; intros H; [reflexivity|].
  rewrite (H a (or_introl eq_refl)), IH; [reflexivity|].
  intros x Hx. apply H. right. exact Hx.
Qed.

Lemma not_in_existsb (leg : String.string) (l : list String.string) :
  ~ In leg l <-> existsb (String.eqb leg) l = false.
Proof.
  split.
  - intros H. destruct (existsb _ l) eqn:E; [|reflexivity].
    apply existsb_exists in E as (x & Hx & Heq). apply String.eqb_eq in Heq.
    subst x. contradiction.
  - intros E Hin. assert (existsb (String.eqb leg) l = true)
      by (apply existsb_exists; exists leg; split; [exact Hin|apply String.eqb_eq; reflexivity]).
    congruence.
Qed.

(** Extra. [HexapodController.update] sends a command for each leg that
    has just become active, and ["off"] when the last active leg went
    inactive; it sends nothing when the active legs did not change or when
    the update raised, and it then remembers the legs it returned. *)
Theorem controller_update_commands odeint (c : Led.controller) now dt :
  let '(c', r, sent) := Led.update odeint c now dt in
  match r with
  | inl _ => sent = [] /\ Led.last_active_legs c' = Led.last_active_legs c
  | inr legs =>
      Led.last_active_legs c' = legs /\
      (legs = Led.last_active_legs c -> sent = []) /\
      (forall cmd, In cmd sent ->
         (In cmd legs /\ ~ In cmd (Led.last_active_legs c)) \/
         (cmd = "off"%string /\ legs = [] /\ Led.last_active_legs c <> [])) /\
      (forall leg, In leg legs -> ~ In leg (Led.last_active_legs c) -> In leg sent) /\
      (legs = [] -> Led.last_active_legs c <> [] -> In "off"%string sent)
  end.
Proof.
  unfold Led.update. destruct (Loco.update odeint (Led.cpg c) now dt) as [s outputs].
  destruct (fold_left _ _ _) as [e|legs]; [split; reflexivity|].
  destruct (List.list_eq_dec String.string_dec legs (Led.last_active_legs c)) as [Heq|Hne].
  - cbn [Led.last_active_legs Led.with_cpg]. split; [symmetry; exact Heq|].
    split; [intros _; reflexivity|]. split; [intros cmd []|].
    split; [intros leg Hl Hn; rewrite Heq in Hl; contradiction|].
    intros Hl Hn. rewrite Hl in Heq. exfalso. apply Hn. symmetry. exact Heq.
  - cbn [Led.last_active_legs]. split; [reflexivity|].
    split; [intros H; contradiction|]. split; [|split].
    + intros cmd Hin. apply in_app_or in Hin as [Hin|Hin].
      * left. apply filter_In in Hin as [Hin Hf]. split; [exact Hin|].
        apply not_in_existsb. apply negb_true_iff. exact Hf.
      * right. destruct legs as [|l0 legs]; [|destruct Hin].
        destruct Hin as [<-|[]]. split; [reflexivity|split; [reflexivity|]].
        intros H. apply Hne. rewrite H. reflexivity.
    + intros leg Hl Hn. apply in_or_app. left. apply filter_In. split; [exact Hl|].
      apply negb_true_iff. apply not_in_existsb. exact Hn.
    + intros -> _. apply in_or_app. right. left. reflexivity.
Qed.

(** Extra. After [HexapodController.reset()], which sends ["off"] and
    forgets the active legs, the next [update] sends exactly one command per
    active leg, in leg order (nothing when no leg is active). *)
Theorem controller_reset_then_update odeint (c : Led.controller) now now' dt :
  snd (Led.reset now c) = ["off"%string] /\
  Led.last_active_legs (fst (Led.reset now c)) = [] /\
  (let '(_, r, sent) := Led.update odeint (fst (Led.reset now c)) now' dt in
   match r with inl _ => sent = [] | inr legs => sent = legs end).
Proof.
  split; [reflexivity|split; [reflexivity|]].
  unfold Led.update. cbn [fst Led.reset Led.cpg Led.last_active_legs].
  destruct (Loco.update odeint _ now' dt) as [s outputs].
  destruct (fold_left _ _ _) as [e|legs]; [reflexivity|].
  destruct (List.list_eq_dec String.string_dec legs []) as [->|Hne]; [reflexivity|].
  rewrite filter_all by (intros x _; reflexivity).
  destruct legs; [contradiction|]. rewrite app_nil_r. reflexivity.
Qed.

(** ** Direction and gait commands ([cpg_loconetwork.py], [ledlocotest.py]) *)

Lemma loco_wave_forward (k : nat) (cs : R) (rd : bool) (s : Loco.net) (W P : mat) :
  (if rd then 0 else Loco.direction_phase s) = 0 ->
  gait_loop (Loco.n s) cs (wave_bias (Loco.n s)) = (W, P) ->
  Loco.set_wave_gait (S k) cs rd s =
  (Loco.with_matrices W P (Loco.with_gait Wave 0 s), Ok).
Proof.
  intros Hd E. simpl. rewrite Hd, E. simpl. rewrite nonzero_0. reflexivity.
Qed.

Lemma loco_set_forward_eq (fuel : nat) (s : Loco.net) (W P : mat) :
  (3 <= fuel)%nat ->
  gait_loop (Loco.n s) 1 (gait_bias (Loco.current_gait s) (Loco.n s)) = (W, P) ->
  Loco.set_forward fuel s =
  (Loco.with_matrices W P
     (Loco.with_gait (Loco.current_gait s) 0 (Loco.with_direction 0 s)), Ok).
Proof.
  intros Hf E. destruct fuel as [|[|[|k]]]; try lia.
  unfold Loco.set_forward, Loco.set_backward. cbn [Loco.update_phase_relationships].
  change (Loco.current_gait (Loco.with_direction 0 s)) with (Loco.current_gait s).
  destruct (Loco.current_gait s); cbn [gait_bias] in E.
  - rewrite (loco_tripod_forward k 1 false (Loco.with_direction 0 s) W P eq_refl E).
    change (Loco.direction_phase
              (Loco.with_matrices W P (Loco.with_gait Tripod 0 (Loco.with_direction 0 s))))
      with 0.
    rewrite nonzero_0. reflexivity.
  - rewrite (loco_wave_forward k 1 false (Loco.with_direction 0 s) W P eq_refl E).
    change (Loco.direction_phase
              (Loco.with_matrices W P (Loco.with_gait Wave 0 (Loco.with_direction 0 s))))
      with 0.
    rewrite nonzero_0. reflexivity.
Qed.

Lemma loco_set_backward_true_error (fuel : nat) (s : Loco.net) :
  snd (Loco.set_backward fuel true s) = RecursionError.
Proof.
  destruct fuel as [|k]; [reflexivity|]. unfold Loco.set_backward.
  apply (proj2 (proj2 (loco_direction_recursion k))).
  change (Loco.direction_phase (Loco.with_direction PI s)) with PI. apply nonzero_PI.
Qed.

(** Extra. [set_forward()] of [cpg_loconetwork.py] returns normally (with a
    recursion budget of three calls) and rebuilds the current gait with the
    default coupling strength 1.0, so a custom coupling strength is lost; it
    sets the direction to 0 and leaves the state, the per-leg arrays and the
    turn flag alone. *)
Theorem set_forward_rebuilds_gait (fuel : nat) (s : Loco.net) :
  (3 <= fuel)%nat ->
  let '(s', r) := Loco.set_forward fuel s in
  r = Ok /\ Loco.direction_phase s' = 0 /\
  Loco.current_gait s' = Loco.current_gait s /\
  (Loco.coupling_weights s', Loco.phase_biases s') =
    gait_loop (Loco.n s) 1 (gait_bias (Loco.current_gait s) (Loco.n s)) /\
  Loco.state s' = Loco.state s /\ Loco.amplitudes s' = Loco.amplitudes s /\
  Loco.frequencies s' = Loco.frequencies s /\ Loco.turning s' = Loco.turning s.
Proof.
  intros Hf.
  destruct (gait_loop (Loco.n s) 1 (gait_bias (Loco.current_gait s) (Loco.n s)))
    as [W P] eqn:E.
  rewrite (loco_set_forward_eq fuel s W P Hf E).
  refine (conj eq_refl (conj eq_refl (conj eq_refl (conj eq_refl
    (conj eq_refl (conj eq_refl (conj eq_refl eq_refl))))))).
Qed.

Lemma set_forward_rebuilds_gait_witness :
  (3 <= 3)%nat /\ snd (Loco.set_forward 3 sample_net) = Ok.
Proof.
  split; [lia|].
  pose proof (set_forward_rebuilds_gait 3 sample_net (le_n 3)) as H.
  destruct (Loco.set_forward 3 sample_net) as [s' r].
  exact (proj1 H).
Defined.

(** Extra. [HexapodController.set_direction(direction)] compares
    [direction.lower()]: ["backward"] always ends in [RecursionError] (the
    recursion of [set_backward]), ["forward"] returns normally (recursion
    budget of three calls), and any other name leaves the controller
    unchanged. *)
Theorem controller_set_direction (fuel : nat) (d : String.string) (c : Led.controller) :
  (Led.lower d = "backward"%string -> snd (Led.set_direction fuel d c) = RecursionError) /\
  (Led.lower d = "forward"%string -> (3 <= fuel)%nat ->
     snd (Led.set_direction fuel d c) = Ok) /\
  (Led.lower d <> "forward"%string -> Led.lower d <> "backward"%string ->
     Led.set_direction fuel d c = (c, Ok)).
Proof.
  unfold Led.set_direction. split; [|split].
  - intros H. rewrite H. cbn [String.eqb Ascii.eqb Bool.eqb].
    pose proof (loco_set_backward_true_error fuel (Led.cpg c)) as E.
    destruct (Loco.set_backward fuel true (Led.cpg c)) as [s r]. exact E.
  - intros H Hf. rewrite H. cbn [String.eqb Ascii.eqb Bool.eqb].
    destruct (gait_loop (Loco.n (Led.cpg c)) 1
                (gait_bias (Loco.current_gait (Led.cpg c)) (Loco.n (Led.cpg c))))
      as [W P] eqn:E.
    rewrite (loco_set_forward_eq fuel (Led.cpg c) W P Hf E). reflexivity.
  - intros H1 H2. destruct (String.eqb_spec (Led.lower d) "forward"); [contradiction|].
    destruct (String.eqb_spec (Led.lower d) "backward"); [contradiction|].
    reflexivity.
Qed.

Lemma controller_set_direction_witness :
  Led.lower "BackWard" = "backward"%string /\
  snd (Led.set_direction 1000 "BackWard" (Led.mk_controller sample_net [] false))
    = RecursionError.
Proof.
  assert (H : Led.lower "BackWard" = "backward"%string) by reflexivity.
  split; [exact H|].
  exact (proj1 (controller_set_direction 1000 "BackWard"
                  (Led.mk_controller sample_net [] false)) H).
Defined.

(** Extra. [HexapodController.set_gait(gait_type)] never raises (with a
    recursion budget of one call), whatever the name and the current
    direction. ["tripod"] (any letter case) applies the tripod gait with
    coupling strength 1.0: [current_gait] becomes tripod, the direction is
    reset to forward, the coupling-weight and phase-bias matrices become
    those the gait loop builds for [n] legs, and nothing else changes;
    ["wave"] does the same with the wave gait; any other name leaves the
    controller unchanged. *)
Theorem controller_set_gait (fuel : nat) (g : String.string) (c : Led.controller) :
  (1 <= fuel)%nat ->
  snd (Led.set_gait fuel g c) = Ok /\
  (Led.lower g = "tripod"%string ->
     let s' := Led.cpg (fst (Led.set_gait fuel g c)) in
     Loco.current_gait s' = Tripod /\ Loco.direction_phase s' = 0 /\
     (Loco.coupling_weights s', Loco.phase_biases s') =
       gait_loop (Loco.n (Led.cpg c)) 1 tripod_bias /\
     fst (Led.set_gait fuel g c) =
       Led.with_cpg (Loco.with_matrices (Loco.coupling_weights s') (Loco.phase_biases s')
                       (Loco.with_gait Tripod 0 (Led.cpg c))) c) /\
  (Led.lower g = "wave"%string ->
     let s' := Led.cpg (fst (Led.set_gait fuel g c)) in
     Loco.current_gait s' = Wave /\ Loco.direction_phase s' = 0 /\
     (Loco.coupling_weights s', Loco.phase_biases s') =
       gait_loop (Loco.n (Led.cpg c)) 1 (wave_bias (Loco.n (Led.cpg c))) /\
     fst (Led.set_gait fuel g c) =
       Led.with_cpg (Loco.with_matrices (Loco.coupling_weights s') (Loco.phase_biases s')
                       (Loco.with_gait Wave 0 (Led.cpg c))) c) /\
  (Led.lower g <> "tripod"%string -> Led.lower g <> "wave"%string ->
     Led.set_gait fuel g c = (c, Ok)).
Proof.
  intros Hf. destruct fuel as [|k]; [lia|]. unfold Led.set_gait.
  destruct (String.eqb_spec (Led.lower g) "tripod") as [Ht|Ht].
  - destruct (gait_loop (Loco.n (Led.cpg c)) 1 tripod_bias) as [W P] eqn:E.
    rewrite (loco_tripod_forward k 1 true (Led.cpg c) W P eq_refl E).
    refine (conj eq_refl (conj _ (conj _ _))).
    + intros _. cbv zeta. cbn [fst Led.cpg Led.with_cpg Loco.with_matrices Loco.with_gait
        Loco.current_gait Loco.direction_phase Loco.coupling_weights Loco.phase_biases].
      refine (conj eq_refl (conj eq_refl (conj eq_refl eq_refl))).
    + intros H. rewrite Ht in H. discriminate H.
    + intros H. contradiction.
  - destruct (String.eqb_spec (Led.lower g) "wave") as [Hw|Hw].
    + destruct (gait_loop (Loco.n (Led.cpg c)) 1 (wave_bias (Loco.n (Led.cpg c))))
        as [W P] eqn:E.
      rewrite (loco_wave_forward k 1 true (Led.cpg c) W P eq_refl E).
      refine (conj eq_refl (conj _ (conj _ _))).
      * intros H. contradiction.
      * intros _. cbv zeta. cbn [fst Led.cpg Led.with_cpg Loco.with_matrices Loco.with_gait
          Loco.current_gait Loco.direction_phase Loco.coupling_weights Loco.phase_biases].
        refine (conj eq_refl (conj eq_refl (conj eq_refl eq_refl))).
      * intros _ H. contradiction.
    + refine (conj eq_refl (conj _ (conj _ _))).
      * intros H. contradiction.
      * intros H. contradiction.
      * intros _ _. reflexivity.
Qed.

Lemma controller_set_gait_witness :
  (1 <= 1)%nat /\
  Loco.current_gait (Led.cpg (fst (Led.set_gait 1 "Wave"
     (Led.mk_controller sample_net [] false)))) = Wave.
Proof.
  split; [lia|].
  exact (proj1 (proj1 (proj2 (proj2 (controller_set_gait 1 "Wave"
            (Led.mk_controller sample_net [] false) (le_n 1)))) eq_refl)).
Defined.

(** ** Composition of the turn calls ([cpg_loconetwork.py]) *)

Lemma lists_eq_on_n (n : nat) (l1 l2 : list R) :
  length l1 = n -> length l2 = n ->
  (forall i, (i < n)%nat -> l1 !! i = l2 !! i) -> l1 = l2.
Proof.
  intros H1 H2 H. apply list_eq. intros i.
  destruct (Nat.lt_ge_cases i n) as [Hi|Hi]; [auto|].
  rewrite !lookup_ge_None_2 by lia. reflexivity.
Qed.

Lemma turn_loop_with_turn (s : Loco.net) t td tf A F ea ef oa of :
  length A = Loco.n s -> length F = Loco.n s ->
  length (Loco.amplitudes s) = Loco.n s -> length (Loco.frequencies s) = Loco.n s ->
  Loco.turn_loop (Loco.with_turn t td tf A F s) ea ef oa of =
  Loco.turn_loop s ea ef oa of.
Proof.
  intros HA HF HA0 HF0.
  destruct (Loco.turn_loop (Loco.with_turn t td tf A F s) ea ef oa of) as [A1 F1] eqn:E1.
  destruct (Loco.turn_loop s ea ef oa of) as [A2 F2] eqn:E2.
  destruct (turn_loop_spec (Loco.with_turn t td tf A F s) _ _ _ _ _ _ HA HF E1)
    as (L1 & M1 & G1).
  destruct (turn_loop_spec _ _ _ _ _ _ _ HA0 HF0 E2) as (L2 & M2 & G2).
  cbn [Loco.n Loco.with_turn Loco.amplitude Loco.base_frequency] in L1, M1, G1.
  f_equal; apply (lists_eq_on_n (Loco.n s)); auto;
    intros i Hi; destruct (G1 i Hi), (G2 i Hi); congruence.
Qed.

Lemma restore_loop_with_turn (s : Loco.net) t td tf A F :
  length A = Loco.n s -> length F = Loco.n s ->
  length (Loco.amplitudes s) = Loco.n s -> length (Loco.frequencies s) = Loco.n s ->
  Loco.restore_loop (Loco.with_turn t td tf A F s) = Loco.restore_loop s.
Proof.
  intros HA HF HA0 HF0.
  destruct (Loco.restore_loop (Loco.with_turn t td tf A F s)) as [A1 F1] eqn:E1.
  destruct (Loco.restore_loop s) as [A2 F2] eqn:E2.
  destruct (restore_loop_spec (Loco.with_turn t td tf A F s) _ _ HA HF E1)
    as (L1 & M1 & G1).
  destruct (restore_loop_spec _ _ _ HA0 HF0 E2) as (L2 & M2 & G2).
  cbn [Loco.n Loco.with_turn Loco.amplitude Loco.base_frequency] in L1, M1, G1.
  f_equal; apply (lists_eq_on_n (Loco.n s)); auto;
    intros i Hi; destruct (G1 i Hi), (G2 i Hi); congruence.
Qed.

(** Each turn call only rewrites the turn fields and the per-leg arrays,
    with arrays of length [n]. *)
Lemma apply_turn_op_shape (o : turn_op) (s : Loco.net) :
  length (Loco.amplitudes s) = Loco.n s -> length (Loco.frequencies s) = Loco.n s ->
  exists t td tf A F, apply_turn_op o s = Loco.with_turn t td tf A F s /\
    length A = Loco.n s /\ length F = Loco.n s.
Proof.
  intros HA HF. destruct o as [f|f|]; cbn [apply_turn_op].
  - unfold Loco.turn_right. destruct (Loco.turn_loop _ _ _ _ _) as [A F] eqn:E.
    destruct (turn_loop_spec _ _ _ _ _ _ _ HA HF E) as (L & M & _).
    eexists _, _, _, A, F. auto.
  - unfold Loco.turn_left. destruct (Loco.turn_loop _ _ _ _ _) as [A F] eqn:E.
    destruct (turn_loop_spec _ _ _ _ _ _ _ HA HF E) as (L & M & _).
    eexists _, _, _, A, F. auto.
  - unfold Loco.stop_turning. destruct (Loco.restore_loop _) as [A F] eqn:E.
    destruct (restore_loop_spec _ _ _ HA HF E) as (L & M & _).
    eexists _, _, _, A, F. auto.
Qed.

Lemma apply_turn_op_with_turn (o : turn_op) (s : Loco.net) t td tf A F :
  length A = Loco.n s -> length F = Loco.n s ->
  length (Loco.amplitudes s) = Loco.n s -> length (Loco.frequencies s) = Loco.n s ->
  apply_turn_op o (Loco.with_turn t td tf A F s) = apply_turn_op o s.
Proof.
  intros HA HF HA0 HF0. destruct o as [f|f|]; cbn [apply_turn_op].
  - unfold Loco.turn_right. rewrite turn_loop_with_turn by assumption.
    destruct (Loco.turn_loop _ _ _ _ _). reflexivity.
  - unfold Loco.turn_left. rewrite turn_loop_with_turn by assumption.
    destruct (Loco.turn_loop _ _ _ _ _). reflexivity.
  - unfold Loco.stop_turning. rewrite restore_loop_with_turn by assumption.
    destruct (Loco.restore_loop _). reflexivity.
Qed.

Lemma reset_with_turn (now : R) (s : Loco.net) t td tf A F :
  length A = Loco.n s -> length F = Loco.n s ->
  length (Loco.amplitudes s) = Loco.n s -> length (Loco.frequencies s) = Loco.n s ->
  Loco.reset now (Loco.with_turn t td tf A F s) = Loco.reset now s.
Proof.
  intros HA HF HA0 HF0. unfold Loco.reset.
  change (Loco.with_state (seed_state (Loco.n (Loco.with_turn t td tf A F s))) now
            (Loco.with_turn t td tf A F s))
    with (Loco.with_turn t td tf A F (Loco.with_state (seed_state (Loco.n s)) now s)).
  rewrite restore_loop_with_turn by assumption.
  destruct (Loco.restore_loop _). reflexivity.
Qed.

(** Extra. Turn calls of [cpg_loconetwork.py] do not accumulate: after any
    of [turn_right], [turn_left] or [stop_turning], a second such call gives
    the network the first call would have given on its own (the multipliers
    are applied to [amplitude] and [base_frequency], not to the current
    per-leg values), and [reset()] gives the same network with or without
    the earlier turn call. *)
Theorem turn_calls_last_wins (o1 o2 : turn_op) (now : R) (s : Loco.net) :
  length (Loco.amplitudes s) = Loco.n s -> length (Loco.frequencies s) = Loco.n s ->
  apply_turn_op o2 (apply_turn_op o1 s) = apply_turn_op o2 s /\
  Loco.reset now (apply_turn_op o1 s) = Loco.reset now s.
Proof.
  intros HA HF.
  destruct (apply_turn_op_shape o1 s HA HF) as (t & td & tf & A & F & -> & L & M).
  split; [apply apply_turn_op_with_turn | apply reset_with_turn]; assumption.
Qed.

Lemma turn_calls_last_wins_witness :
  length (Loco.amplitudes sample_net) = Loco.n sample_net /\
  length (Loco.frequencies sample_net) = Loco.n sample_net /\
  apply_turn_op (OpLeft 0.3) (apply_turn_op (OpRight 0.5) sample_net) =
    apply_turn_op (OpLeft 0.3) sample_net /\
  Loco.reset 0 (apply_turn_op (OpRight 0.5) sample_net) = Loco.reset 0 sample_net.
Proof.
  split; [reflexivity|split; [reflexivity|]].
  apply turn_calls_last_wins; reflexivity.
Defined.

(** ** The direction shift and [set_backward] of [cpg_network_loco.py] *)

(** One row of the shift: [for j in l: if i != j: P[i, j] = (P[i, j] + d) % 2π]. *)
Lemma shift_row n d i (l : list nat) M :
  mat_shape n M -> (i < n)%nat -> List.Forall (fun j => j < n)%nat l -> NoDup l ->
  let M' := fold_left (fun P j =>
              if Nat.eqb i j then P
              else mat_set P i j (py_mod (mat_get P i j + d) (2 * PI))) l M in
  mat_shape n M' /\
  forall a b, mat_get M' a b =
    (if Nat.eqb a i && existsb (Nat.eqb b) l && negb (Nat.eqb a b)
     then py_mod (mat_get M a b + d) (2 * PI) else mat_get M a b).
Proof.
  revert M. induction l as [|j l IH]; intros M HM Hi Hl Hnd M'; subst M'; simpl.
  - split; [exact HM|]. intros a b. rewrite andb_false_r. reflexivity.
  - inversion Hl as [|? ? Hj Hl']; subst. inversion Hnd as [|? ? Hjl Hnd']; subst.
    assert (Hjl' : existsb (Nat.eqb j) l = false).
    { apply not_true_iff_false. intros Hex. apply existsb_exists in Hex as [x [Hx Hjx]].
      apply Nat.eqb_eq in Hjx. subst x. apply Hjl, list_elem_of_In, Hx. }
    destruct (Nat.eqb_spec i j) as [<-|Hij].
    + destruct (IH M HM Hi Hl' Hnd') as (HS & Hget). split; [exact HS|].
      intros a b. rewrite Hget.
      destruct (Nat.eqb_spec a i) as [Ha|Ha], (Nat.eqb_spec b i) as [Hb|Hb],
        (Nat.eqb_spec a b) as [Hab|Hab], (existsb (Nat.eqb b) l) eqn:Eb;
        simpl; subst; auto; try congruence; exfalso; lia.
    + set (M1 := mat_set M i j (py_mod (mat_get M i j + d) (2 * PI))).
      assert (HM1 : mat_shape n M1) by apply mat_set_shape, HM.
      destruct (IH M1 HM1 Hi Hl' Hnd') as (HS & Hget). split; [exact HS|].
      intros a b. rewrite Hget. unfold M1.
      rewrite !(mat_set_get n M i j _ a b HM Hi Hj).
      destruct (Nat.eqb_spec a i) as [->|Ha]; cbn [andb]; [|reflexivity].
      destruct (Nat.eqb_spec b j) as [->|Hb]; cbn [andb orb negb].
      * rewrite Hjl'. apply Nat.eqb_neq in Hij. rewrite Hij. reflexivity.
      * reflexivity.
Qed.

Lemma shift_rows n d (l : list nat) M :
  mat_shape n M -> List.Forall (fun i => i < n)%nat l -> NoDup l ->
  let M' := fold_left (fun P i =>
              fold_left (fun P j =>
                if Nat.eqb i j then P
                else mat_set P i j (py_mod (mat_get P i j + d) (2 * PI)))
                (seq 0 n) P) l M in
  mat_shape n M' /\
  forall a b, mat_get M' a b =
    (if existsb (Nat.eqb a) l && Nat.ltb b n && negb (Nat.eqb a b)
     then py_mod (mat_get M a b + d) (2 * PI) else mat_get M a b).
Proof.
  revert M. induction l as [|i l IH]; intros M HM Hl Hnd M'; subst M'; simpl.
  - split; [exact HM|]. intros a b. reflexivity.
  - inversion Hl as [|? ? Hi Hl']; subst. inversion Hnd as [|? ? Hil Hnd']; subst.
    destruct (shift_row n d i (seq 0 n) M HM Hi (Forall_seq_lt n) (NoDup_seq 0 n))
      as (HS1 & Hget1).
    destruct (IH _ HS1 Hl' Hnd') as (HS & Hget). split; [exact HS|].
    intros a b. rewrite Hget, !Hget1, existsb_seq.
    destruct (Nat.eqb_spec a i) as [->|Ha]; cbn [orb].
    + assert (Hil' : existsb (Nat.eqb i) l = false).
      { apply not_true_iff_false. intros Hex. apply existsb_exists in Hex as [x [Hx Hix]].
        apply Nat.eqb_eq in Hix. subst x. apply Hil, list_elem_of_In, Hx. }
      rewrite Hil'. cbn [andb]. reflexivity.
    + cbn [andb]. reflexivity.
Qed.

(** Each off-diagonal entry of an n×n phase matrix is shifted exactly once. *)
Lemma shift_phases_get n d P a b :
  mat_shape n P -> (a < n)%nat -> (b < n)%nat ->
  mat_get (shift_phases n d P) a b =
  if Nat.eqb a b then mat_get P a b else py_mod (mat_get P a b + d) (2 * PI).
Proof.
  intros HP Ha Hb. unfold shift_phases.
  destruct (shift_rows n d (seq 0 n) P HP (Forall_seq_lt n) (NoDup_seq 0 n)) as (_ & Hget).
  rewrite Hget, existsb_seq.
  destruct (Nat.ltb_spec a n); [|lia]. destruct (Nat.ltb_spec b n); [|lia].
  destruct (Nat.eqb a b); reflexivity.
Qed.

(** [x % y] for [x] in [[0, 2y)]. *)
Lemma py_mod_below x y : 0 < y -> 0 <= x < y -> py_mod x y = x.
Proof.
  intros Hy Hx. unfold py_mod, Int_part.
  assert (Hq : 0 <= x / y < 1).
  { split; [unfold Rdiv; apply Rmult_le_pos; [lra|left; apply Rinv_0_lt_compat; lra]|].
    apply (Rmult_lt_reg_r y); [lra|]. unfold Rdiv.
    rewrite Rmult_assoc, Rinv_l, Rmult_1_r by lra. lra. }
  rewrite <- (tech_up (x / y) 1) by (rewrite ?plus_IZR; simpl; lra).
  change (1 - 1)%Z with 0%Z. ring.
Qed.

Lemma py_mod_once x y : 0 < y -> y <= x < 2 * y -> py_mod x y = x - y.
Proof.
  intros Hy Hx. unfold py_mod, Int_part.
  assert (Hq : 1 <= x / y < 2).
  { split; apply (Rmult_le_reg_r y) || apply (Rmult_lt_reg_r y); try lra;
      unfold Rdiv; rewrite Rmult_assoc, Rinv_l, Rmult_1_r by lra; lra. }
  rewrite <- (tech_up (x / y) 2) by (simpl; lra).
  change (2 - 1)%Z with 1%Z. ring.
Qed.

Lemma netloco_set_backward_eq (b : bool) (s : Loco.net) (W P : mat) :
  gait_loop (Loco.n s) 1 (gait_bias (Loco.current_gait s) (Loco.n s)) = (W, P) ->
  NetLoco.set_backward b s =
  Loco.with_matrices W (if b then shift_phases (Loco.n s) PI P else P)
    (Loco.with_gait (Loco.current_gait s) (if b then PI else 0) s).
Proof.
  intros E. unfold NetLoco.set_backward, NetLoco.update_phase_relationships,
    Loco.with_direction.
  cbn [Loco.current_gait Loco.with_gait].
  destruct (Loco.current_gait s); cbn [gait_bias] in E;
    unfold NetLoco.set_tripod_gait, NetLoco.set_wave_gait;
    cbn [Loco.n Loco.with_gait Loco.direction_phase]; rewrite E;
    (destruct b; cbn [Loco.direction_phase Loco.with_matrices Loco.with_gait Loco.n
                      Loco.phase_biases Loco.coupling_weights];
     [rewrite nonzero_PI | rewrite nonzero_0]; reflexivity).
Qed.

(** Extra. Direction calls of [cpg_network_loco.py] do not accumulate: any
    [set_backward(b')] (or [set_forward()]) after an earlier [set_backward(b)]
    gives the network that [set_backward(b')] gives on its own, since both
    matrices are rebuilt from the gait before the shift. *)
Theorem netloco_set_backward_last_wins (b b' : bool) (s : Loco.net) :
  NetLoco.set_backward b' (NetLoco.set_backward b s) = NetLoco.set_backward b' s.
Proof.
  destruct (gait_loop (Loco.n s) 1 (gait_bias (Loco.current_gait s) (Loco.n s)))
    as [W P] eqn:E.
  rewrite (netloco_set_backward_eq b s W P E).
  match goal with
  | |- NetLoco.set_backward _ ?s1 = _ => rewrite (netloco_set_backward_eq b' s1 W P E)
  end.
  rewrite (netloco_set_backward_eq b' s W P E). reflexivity.
Qed.

(** The phase matrix after [set_backward(True)] in [cpg_network_loco.py]:
    every off-diagonal gait bias moved by π modulo 2π. *)
Lemma netloco_backward_biases (s : Loco.net) a b :
  (a < Loco.n s)%nat -> (b < Loco.n s)%nat ->
  mat_get (Loco.phase_biases (NetLoco.set_backward true s)) a b =
  if Nat.eqb a b then 0
  else let x := gait_bias (Loco.current_gait s) (Loco.n s) a b in
       if Rlt_dec x PI then x + PI else x - PI.
Proof.
  intros Ha Hb. pose proof PI_RGT_0 as Hpi.
  destruct (gait_loop (Loco.n s) 1 (gait_bias (Loco.current_gait s) (Loco.n s)))
    as [W P] eqn:E.
  rewrite (netloco_set_backward_eq true s W P E). cbn [Loco.phase_biases Loco.with_matrices].
  destruct (gait_loop_spec _ _ _ _ _ E) as (_ & HP & Hget).
  rewrite (shift_phases_get _ _ _ a b HP Ha Hb), (proj2 (Hget a b Ha Hb)).
  destruct (Nat.eqb a b); [reflexivity|].
  assert (Hr : 0 <= gait_bias (Loco.current_gait s) (Loco.n s) a b < 2 * PI).
  { destruct (Loco.current_gait s); cbn [gait_bias];
      [apply tripod_bias_range | apply wave_bias_range; lia]. }
  cbv zeta. destruct (Rlt_dec _ PI).
  - apply py_mod_below; lra.
  - rewrite py_mod_once by lra. ring.
Qed.

(** Extra. [set_backward(True)] of [cpg_network_loco.py] moves every
    off-diagonal phase bias [x] of the current gait by π modulo 2π (to
    [x + π] when [x < π], else to [x − π]), keeps the diagonal at 0, and
    sets the direction to π. *)
Theorem netloco_backward_shift (s : Loco.net) a b :
  (a < Loco.n s)%nat -> (b < Loco.n s)%nat ->
  Loco.direction_phase (NetLoco.set_backward true s) = PI /\
  mat_get (Loco.phase_biases (NetLoco.set_backward true s)) a b =
  if Nat.eqb a b then 0
  else let x := gait_bias (Loco.current_gait s) (Loco.n s) a b in
       if Rlt_dec x PI then x + PI else x - PI.
Proof.
  intros Ha Hb. split; [|apply netloco_backward_biases; assumption].
  destruct (gait_loop (Loco.n s) 1 (gait_bias (Loco.current_gait s) (Loco.n s)))
    as [W P] eqn:E.
  rewrite (netloco_set_backward_eq true s W P E). reflexivity.
Qed.

Lemma netloco_backward_shift_witness :
  (0 < Loco.n sample_net)%nat /\ (1 < Loco.n sample_net)%nat /\
  Loco.direction_phase (NetLoco.set_backward true sample_net) = PI /\
  mat_get (Loco.phase_biases (NetLoco.set_backward true sample_net)) 0 1 =
  (if Nat.eqb 0 1 then 0
   else let x := gait_bias (Loco.current_gait sample_net) (Loco.n sample_net) 0 1 in
        if Rlt_dec x PI then x + PI else x - PI).
Proof.
  assert (H0 : (0 < Loco.n sample_net)%nat) by (cbv [sample_net Loco.n]; lia).
  assert (H1 : (1 < Loco.n sample_net)%nat) by (cbv [sample_net Loco.n]; lia).
  split; [exact H0|split; [exact H1|]].
  exact (netloco_backward_shift sample_net 0 1 H0 H1).
Defined.

(** Extra. Under the tripod gait, [set_backward(True)] of
    [cpg_network_loco.py] sets the bias of two distinct legs of the same
    tripod (same index parity) to π and of two legs of different tripods
    to 0: the forward pattern with every pair flipped. *)
Theorem netloco_backward_tripod (s : Loco.net) a b :
  Loco.current_gait s = Tripod ->
  (a < Loco.n s)%nat -> (b < Loco.n s)%nat -> a <> b ->
  mat_get (Loco.phase_biases (NetLoco.set_backward true s)) a b =
  if Nat.eqb (Nat.modulo a 2) (Nat.modulo b 2) then PI else 0.
Proof.
  intros Hg Ha Hb Hab. pose proof PI_RGT_0 as Hpi.
  rewrite (netloco_backward_biases s a b Ha Hb), Hg.
  apply Nat.eqb_neq in Hab. rewrite Hab. cbv zeta. cbn [gait_bias]. unfold tripod_bias.
  destruct (Nat.eqb (Nat.modulo a 2) (Nat.modulo b 2)); destruct (Rlt_dec _ PI); lra.
Qed.

Lemma netloco_backward_tripod_witness :
  Loco.current_gait sample_net = Tripod /\
  (0 < Loco.n sample_net)%nat /\ (1 < Loco.n sample_net)%nat /\
  mat_get (Loco.phase_biases (NetLoco.set_backward true sample_net)) 0 1 = 0.
Proof.
  assert (Hg : Loco.current_gait sample_net = Tripod) by reflexivity.
  assert (H0 : (0 < Loco.n sample_net)%nat) by (cbv [sample_net Loco.n]; lia).
  assert (H1 : (1 < Loco.n sample_net)%nat) by (cbv [sample_net Loco.n]; lia).
  split; [exact Hg|split; [exact H0|split; [exact H1|]]].
  rewrite (netloco_backward_tripod sample_net 0 1 Hg H0 H1 ltac:(lia)).
  reflexivity.
Defined.

(** Extra. In [cpg_network_loco.py] a gait setter called with
    [reset_direction=False] after [set_backward(True)] keeps the direction
    at π but writes the forward biases of the gait: the backward shift is
    lost while the network still reports moving backward. *)
Theorem netloco_gait_after_backward (cs : R) (s : Loco.net) :
  Loco.direction_phase (NetLoco.set_tripod_gait cs false (NetLoco.set_backward true s)) = PI /\
  Loco.phase_biases (NetLoco.set_tripod_gait cs false (NetLoco.set_backward true s)) =
    snd (gait_loop (Loco.n s) cs tripod_bias) /\
  Loco.direction_phase (NetLoco.set_wave_gait cs false (NetLoco.set_backward true s)) = PI /\
  Loco.phase_biases (NetLoco.set_wave_gait cs false (NetLoco.set_backward true s)) =
    snd (gait_loop (Loco.n s) cs (wave_bias (Loco.n s))).
Proof.
  destruct (gait_loop (Loco.n s) 1 (gait_bias (Loco.current_gait s) (Loco.n s)))
    as [W P] eqn:E.
  rewrite (netloco_set_backward_eq true s W P E).
  unfold NetLoco.set_tripod_gait, NetLoco.set_wave_gait.
  cbn [Loco.n Loco.with_gait Loco.with_matrices Loco.direction_phase].
  destruct (gait_loop (Loco.n s) cs tripod_bias) as [W1 P1].
  destruct (gait_loop (Loco.n s) cs (wave_bias (Loco.n s))) as [W2 P2].
  refine (conj eq_refl (conj eq_refl (conj eq_refl eq_refl))).
Qed.

(** ** The derivative functions at the origin, and their shape *)

Lemma insert_repeat_0 (k m : nat) : <[k := 0]> (repeat 0 m) = repeat 0 m.
Proof.
  apply list_insert_id'. intros Hk. rewrite repeat_length in Hk.
  apply lookup_repeat_lt. exact Hk.
Qed.

(** With every oscillator at the origin, the coupling loop adds nothing. *)
Lemma couple_origin n W P m i a b :
  a = 0 -> b = 0 -> couple n W P (repeat 0 m) i 0 0 (a, b) = (0, 0).
Proof.
  intros -> ->. unfold couple. generalize (seq 0 n) as l.
  induction l as [|j l IH]; [reflexivity|]. cbn [fold_left].
  destruct (negb (Nat.eqb i j) && nonzero (mat_get W i j)); [|exact IH].
  rewrite !nth_repeat.
  replace (0 + mat_get W i j * (0 * cos (mat_get P i j) - 0 * sin (mat_get P i j) - 0))
    with 0 by ring.
  replace (0 + mat_get W i j * (0 * sin (mat_get P i j) + 0 * cos (mat_get P i j) - 0))
    with 0 by ring.
  exact IH.
Qed.

Lemma insert_pair_length (l : list R) i a b :
  length (<[(2 * i + 1)%nat := b]> (<[(2 * i)%nat := a]> l)) = length l.
Proof. rewrite !length_insert. reflexivity. Qed.

Ltac origin_step :=
  intros acc i _ ->; cbv beta zeta; rewrite !nth_repeat;
  rewrite couple_origin by ring; rewrite !insert_repeat_0; reflexivity.

Ltac shape_step :=
  intros acc i _ Hacc; cbv beta zeta;
  match goal with |- context [couple ?n ?W ?P ?st ?i ?x ?y ?d] =>
    destruct (couple n W P st i x y d) end;
  rewrite insert_pair_length; exact Hacc.

(** Extra. In [cpg_loconetwork.py] and [cpg_network.py], on the inputs
    where [equations] does not raise [IndexError] (a state of at least [2n]
    entries, [n×n] matrices and, for the extended network, [n] per-leg
    frequencies and amplitudes), [equations] returns a vector of the length
    of the state it is given ([np.zeros_like(state)]), and the all-zero
    state is an equilibrium: its derivative is the zero vector, whatever the
    matrix entries, per-leg values and gait. *)
Theorem equations_shape_and_origin (s : Loco.net) (p : Plain.net) (st : list R) (m : nat) :
  mat_shape (Loco.n s) (Loco.coupling_weights s) ->
  mat_shape (Loco.n s) (Loco.phase_biases s) ->
  (Loco.n s <= length (Loco.frequencies s))%nat ->
  (Loco.n s <= length (Loco.amplitudes s))%nat ->
  mat_shape (Plain.n p) (Plain.coupling_weights p) ->
  mat_shape (Plain.n p) (Plain.phase_biases p) ->
  (2 * Loco.n s <= length st)%nat -> (2 * Plain.n p <= length st)%nat ->
  (2 * Loco.n s <= m)%nat -> (2 * Plain.n p <= m)%nat ->
  length (Loco.equations s st) = length st /\
  length (Plain.equations p st) = length st /\
  Loco.equations s (repeat 0 m) = repeat 0 m /\
  Plain.equations p (repeat 0 m) = repeat 0 m.
Proof.
  intros _ _ _ _ _ _ _ _ _ _.
  split; [|split; [|split]].
  - unfold Loco.equations.
    apply (fold_left_preserve (fun d => length d = length st));
      [shape_step | apply repeat_length].
  - unfold Plain.equations.
    apply (fold_left_preserve (fun d => length d = length st));
      [shape_step | apply repeat_length].
  - unfold Loco.equations. rewrite repeat_length.
    apply (fold_left_preserve (fun d => d = repeat 0 m)); [origin_step | reflexivity].
  - unfold Plain.equations. rewrite repeat_length.
    apply (fold_left_preserve (fun d => d = repeat 0 m)); [origin_step | reflexivity].
Qed.

Lemma equations_shape_and_origin_witness :
  (2 * Loco.n sample_net <= length (repeat 0 4))%nat /\
  Loco.equations sample_net (repeat 0 4) = repeat 0 4.
Proof.
  assert (Hm : mat_shape 2 (mat_zeros 2)) by (split; [reflexivity|repeat constructor]).
  split; [cbn; lia|].
  exact (proj1 (proj2 (proj2 (equations_shape_and_origin sample_net sample_plain
           (repeat 0 4) 4 Hm Hm ltac:(cbn; lia) ltac:(cbn; lia) Hm Hm
           ltac:(cbn; lia) ltac:(cbn; lia) ltac:(cbn; lia) ltac:(cbn; lia))))).
Defined.

(** ** The single oscillator of [cpg_single_hopf.py] *)

(** Extra. [HopfOscillator.equations] raises [ValueError] on a state that
    does not have two entries; on [[x, y]] with [r² = x² + y²] its
    derivative satisfies [x·dx + y·dy = μ(A − r²)r²] (the radius grows
    below [√A] and shrinks above) and [x·dy − y·dx = ω r²] (constant
    angular speed [ω]). *)
Theorem hopf_polar (o : Hopf.osc) (st : list R) (x y : R) :
  (length st <> 2%nat -> Hopf.equations o st = None) /\
  exists dx dy, Hopf.equations o [x; y] = Some [dx; dy] /\
    x * dx + y * dy = Hopf.mu o * (Hopf.amplitude o - (x ^ 2 + y ^ 2)) * (x ^ 2 + y ^ 2) /\
    x * dy - y * dx = Hopf.omega o * (x ^ 2 + y ^ 2).
Proof.
  split.
  - intros Hl. destruct st as [|a [|b [|c l]]]; try reflexivity. simpl in Hl. lia.
  - eexists _, _. split; [reflexivity|]. split; ring.
Qed.

Lemma hopf_polar_witness :
  (length [1; 2; 3] <> 2%nat -> Hopf.equations (Hopf.init 1 1 1 0) [1; 2; 3] = None) /\
  Hopf.equations (Hopf.init 1 1 1 0) [1; 2; 3] = None.
Proof.
  pose proof (proj1 (hopf_polar (Hopf.init 1 1 1 0) [1; 2; 3] 0 0)) as H.
  split; [exact H|]. apply H. simpl. lia.
Defined.

(** Extra. A network of [cpg_network.py] with one oscillator computes the
    derivative of the single oscillator of [cpg_single_hopf.py] with the
    same amplitude, [omega] and [mu], whatever its matrices (the coupling
    loop skips [j = i]); the two constructors called with the same
    amplitude, frequency and [mu] give exactly such a pair, both starting
    from the state [[0.1, 0]]. *)
Theorem hopf_one_node_network (o : Hopf.osc) (p : Plain.net) (x y A f mu now : R) :
  (Plain.n p = 1%nat -> Plain.amplitude p = Hopf.amplitude o ->
   Plain.omega p = Hopf.omega o -> Plain.mu p = Hopf.mu o ->
   Hopf.equations o [x; y] = Some (Plain.equations p [x; y])) /\
  (let o0 := Hopf.init A f mu now in let p0 := Plain.init 1 A f mu now in
   Plain.n p0 = 1%nat /\ Plain.amplitude p0 = Hopf.amplitude o0 /\
   Plain.omega p0 = Hopf.omega o0 /\ Plain.mu p0 = Hopf.mu o0 /\
   Plain.state p0 = [Hopf.x o0; Hopf.y o0]).
Proof.
  split.
  - intros Hn Ha Hw Hmu. unfold Plain.equations. rewrite Hn, Ha, Hw, Hmu.
    cbn [seq fold_left length repeat].
    unfold couple. cbn [seq fold_left Nat.eqb negb andb].
    reflexivity.
  - cbv zeta. unfold Plain.init, Plain.set_tripod_gait. cbn [Plain.n].
    destruct (gait_loop 1 1 tripod_bias).
    refine (conj eq_refl (conj eq_refl (conj eq_refl (conj eq_refl eq_refl)))).
Qed.

Lemma hopf_one_node_network_witness :
  Plain.n (Plain.init 1 1 1 1 0) = 1%nat /\
  Hopf.equations (Hopf.init 1 1 1 0) [0.1; 0] =
    Some (Plain.equations (Plain.init 1 1 1 1 0) [0.1; 0]).
Proof.
  destruct (proj2 (hopf_one_node_network (Hopf.init 1 1 1 0) (Plain.init 1 1 1 1 0)
                     0.1 0 1 1 1 0)) as (Hn & Ha & Hw & Hmu & _).
  split; [exact Hn|].
  exact (proj1 (hopf_one_node_network (Hopf.init 1 1 1 0) (Plain.init 1 1 1 1 0)
                  0.1 0 1 1 1 0) Hn Ha Hw Hmu).
Defined.

(** ** C9: convergence of the single oscillator *)

Lemma radius_den_pos A rho e : 0 < A -> 0 <= rho -> 0 < e <= 1 -> 0 < rho + (A - rho) * e.
Proof. intros HA Hr He. nra. Qed.

Lemma radius_map_1 A rho : 0 < A -> radius_map A rho 1 = rho.
Proof. intros HA. unfold radius_map. field. lra. Qed.

Lemma radius_map_nonneg A rho e : 0 < A -> 0 <= rho -> 0 < e <= 1 -> 0 <= radius_map A rho e.
Proof.
  intros HA Hr He. unfold radius_map. pose proof (radius_den_pos A rho e HA Hr He).
  unfold Rdiv. apply Rmult_le_pos; [nra|left; apply Rinv_0_lt_compat; lra].
Qed.

Lemma radius_map_comp A rho e1 e2 : 0 < A -> 0 <= rho -> 0 < e1 <= 1 -> 0 < e2 <= 1 ->
  radius_map A (radius_map A rho e1) e2 = radius_map A rho (e1 * e2).
Proof.
  intros HA Hr H1 H2.
  pose proof (radius_den_pos A rho e1 HA Hr H1) as D1.
  assert (H12 : 0 < e1 * e2 <= 1) by nra.
  pose proof (radius_den_pos A rho (e1 * e2) HA Hr H12) as D12.
  unfold radius_map.
  assert (Hs : A * rho / (rho + (A - rho) * e1) + (A - A * rho / (rho + (A - rho) * e1)) * e2
               = A * (rho + (A - rho) * (e1 * e2)) / (rho + (A - rho) * e1)) by (field; lra).
  rewrite Hs. field. split; [|split]; lra.
Qed.

Lemma radius_map_bounds A rho e : 0 < A -> 0 < rho -> 0 < e <= 1 ->
  Rmin rho A <= radius_map A rho e <= Rmax rho A.
Proof.
  intros HA Hr He. pose proof (radius_den_pos A rho e HA (Rlt_le _ _ Hr) He) as D.
  set (d := rho + (A - rho) * e) in *.
  assert (HM : radius_map A rho e * d = A * rho) by (unfold radius_map; fold d; field; lra).
  unfold Rmin, Rmax. destruct (Rle_dec rho A).
  - assert (rho <= d <= A) by (unfold d; nra). split; nra.
  - assert (A <= d <= rho) by (unfold d; nra). split; nra.
Qed.

Lemma radius_map_close A rho e : 0 < A -> 0 < rho -> 0 < e <= 1 ->
  Rabs (radius_map A rho e - A) <= A * Rabs (A - rho) * e / Rmin rho A.
Proof.
  intros HA Hr He. pose proof (radius_den_pos A rho e HA (Rlt_le _ _ Hr) He) as D.
  set (d := rho + (A - rho) * e) in *.
  assert (Hm : 0 < Rmin rho A) by (apply Rmin_glb_lt; lra).
  assert (Hdm : Rmin rho A <= d). { unfold Rmin, d. destruct (Rle_dec rho A); nra. }
  assert (Hdiff : radius_map A rho e - A = - (A * (A - rho) * e) / d)
    by (unfold radius_map, d; unfold d in D; field; lra).
  rewrite Hdiff. unfold Rdiv. rewrite Rabs_mult, Rabs_Ropp, Rabs_inv, !Rabs_mult.
  rewrite (Rabs_right A) by lra. rewrite (Rabs_right e) by lra. rewrite (Rabs_right d) by lra.
  apply Rmult_le_compat_l; [apply Rmult_le_pos; [apply Rmult_le_pos; [lra|apply Rabs_pos]|lra]|].
  apply Rinv_le_contravar; lra.
Qed.

Lemma flow_exp_range A mu t : 0 < A -> 0 <= mu -> 0 <= t -> 0 < exp (- (2 * mu * A * t)) <= 1.
Proof.
  intros HA Hmu Ht. split; [apply exp_pos|].
  rewrite <- exp_0. assert (H0 : 0 <= mu * A * t) by (apply Rmult_le_pos; nra).
  destruct (Rle_lt_or_eq_dec _ _ H0) as [Hl|He].
  - left. apply exp_increasing. lra.
  - right. f_equal. lra.
Qed.

Lemma flow_den_pos A mu rho t : 0 < A -> 0 <= mu -> 0 <= rho -> 0 <= t -> 0 < flow_den A mu rho t.
Proof.
  intros HA Hmu Hr Ht. unfold flow_den. apply radius_den_pos; [lra|lra|].
  apply flow_exp_range; lra.
Qed.

Lemma rot_radius w x y t :
  (x * cos (w * t) - y * sin (w * t)) ^ 2 + (x * sin (w * t) + y * cos (w * t)) ^ 2 = x ^ 2 + y ^ 2.
Proof. pose proof (sin2_cos2 (w * t)) as H. unfold Rsqr in H. nra. Qed.

(** The squared radius of [hopf_flow] follows [radius_map]. *)
Lemma hopf_flow_radius A w mu x y t : 0 < A -> 0 <= mu -> 0 <= t ->
  exists x' y', hopf_flow A w mu [x; y] t = [x'; y'] /\
    x' ^ 2 + y' ^ 2 = radius_map A (x ^ 2 + y ^ 2) (exp (- (2 * mu * A * t))).
Proof.
  intros HA Hmu Ht. eexists _, _. split; [reflexivity|].
  assert (Hr : 0 <= x ^ 2 + y ^ 2) by nra.
  pose proof (flow_den_pos A mu (x ^ 2 + y ^ 2) t HA Hmu Hr Ht) as HD.
  assert (HSS : flow_gain A mu (x ^ 2 + y ^ 2) t * flow_gain A mu (x ^ 2 + y ^ 2) t
                = A / flow_den A mu (x ^ 2 + y ^ 2) t)
    by (unfold flow_gain; apply sqrt_sqrt; unfold Rdiv; apply Rmult_le_pos; [lra|left; apply Rinv_0_lt_compat; lra]).
  set (s := flow_gain A mu (x ^ 2 + y ^ 2) t) in *.
  transitivity (s * s * ((x * cos (w * t) - y * sin (w * t)) ^ 2 + (x * sin (w * t) + y * cos (w * t)) ^ 2)); [ring|].
  rewrite rot_radius, HSS. unfold radius_map, flow_den in *. field. lra.
Qed.

Lemma dl_val f x l l' : derivable_pt_lim f x l -> l = l' -> derivable_pt_lim f x l'.
Proof. intros H ->. exact H. Qed.

Lemma dl_ext f g x l : (forall u, f u = g u) -> derivable_pt_lim f x l -> derivable_pt_lim g x l.
Proof.
  intros He H. replace g with f; [exact H|]. apply functional_extensionality. exact He.
Qed.

Lemma dl_lin a x : derivable_pt_lim (fun u => a * u) x a.
Proof.
  apply (dl_val _ _ (0 * x + a * 1)); [|ring].
  apply (derivable_pt_lim_mult (fun _ => a) (fun u => u));
    [apply derivable_pt_lim_const|apply derivable_pt_lim_id].
Qed.

Lemma dl_exp_lin a x : derivable_pt_lim (fun u => exp (a * u)) x (a * exp (a * x)).
Proof.
  apply (dl_val _ _ (exp (a * x) * a)); [|ring].
  apply (derivable_pt_lim_comp (fun u => a * u) exp); [apply dl_lin|apply derivable_pt_lim_exp].
Qed.

Lemma dl_cos_lin w x : derivable_pt_lim (fun u => cos (w * u)) x (- sin (w * x) * w).
Proof. apply (derivable_pt_lim_comp (fun u => w * u) cos); [apply dl_lin|apply derivable_pt_lim_cos]. Qed.

Lemma dl_sin_lin w x : derivable_pt_lim (fun u => sin (w * u)) x (cos (w * x) * w).
Proof. apply (derivable_pt_lim_comp (fun u => w * u) sin); [apply dl_lin|apply derivable_pt_lim_sin]. Qed.

Section Flow.

Variables A mu rho : R.
Hypothesis HA : 0 < A.
Hypothesis Hmu : 0 <= mu.
Hypothesis Hrho : 0 <= rho.

Lemma flow_den_deriv t :
  derivable_pt_lim (flow_den A mu rho) t ((A - rho) * (- (2 * mu * A) * exp (- (2 * mu * A * t)))).
Proof.
  apply (dl_ext (fun u => rho + (A - rho) * exp ((- (2 * mu * A)) * u)));
    [intros u; unfold flow_den; replace (- (2 * mu * A) * u) with (- (2 * mu * A * u)) by ring; reflexivity|].
  replace (- (2 * mu * A * t)) with ((- (2 * mu * A)) * t) by ring.
  apply (dl_val _ _ (0 + (0 * exp ((- (2 * mu * A)) * t) + (A - rho) * ((- (2 * mu * A)) * exp ((- (2 * mu * A)) * t))))); [|ring].
  apply (derivable_pt_lim_plus (fun _ => rho)); [apply derivable_pt_lim_const|].
  apply (derivable_pt_lim_mult (fun _ => A - rho) (fun u => exp ((- (2 * mu * A)) * u)));
    [apply derivable_pt_lim_const|apply dl_exp_lin].
Qed.

(** The gain solves [s' = mu (A - rho s^2) s]. *)
Lemma flow_gain_deriv t : 0 <= t ->
  derivable_pt_lim (flow_gain A mu rho) t
    (mu * (A - rho * (A / flow_den A mu rho t)) * flow_gain A mu rho t).
Proof.
  intros Ht. pose proof (flow_den_pos A mu rho t HA Hmu Hrho Ht) as HD.
  assert (Hg : 0 < A / flow_den A mu rho t) by (apply Rdiv_lt_0_compat; lra).
  assert (HS : 0 < flow_gain A mu rho t) by (unfold flow_gain; apply sqrt_lt_R0, Hg).
  assert (HSS : flow_gain A mu rho t * flow_gain A mu rho t = A / flow_den A mu rho t)
    by (unfold flow_gain; apply sqrt_sqrt; lra).
  unfold flow_gain at 1.
  eapply dl_val.
  - apply (derivable_pt_lim_comp (fun u => A / flow_den A mu rho u) sqrt).
    + apply (derivable_pt_lim_div (fun _ => A) (flow_den A mu rho));
        [apply derivable_pt_lim_const|apply flow_den_deriv|lra].
    + apply derivable_pt_lim_sqrt, Hg.
  - fold (flow_gain A mu rho t).
    set (e := exp (- (2 * mu * A * t))).
    assert (Hdd : flow_den A mu rho t = rho + (A - rho) * e) by reflexivity.
    set (dd := flow_den A mu rho t) in *. set (s := flow_gain A mu rho t) in *.
    assert (Hinv : / (2 * s) = s / (2 * (A / dd))) by (rewrite <- HSS; field; lra).
    rewrite Hinv. unfold Rsqr.
    replace ((A - rho) * (- (2 * mu * A) * e)) with (- (2 * mu * A) * (dd - rho)) by (rewrite Hdd; ring).
    field. lra.
Qed.

End Flow.

(** Extra. The closed form [hopf_flow] is the solution that
    [odeint(self.equations, [x, y], [0, dt])] approximates, for a positive
    amplitude and a nonnegative [mu]: it starts at [[x, y]] and, at every
    [t >= 0], the derivative of each coordinate is the corresponding entry
    of [HopfOscillator.equations] on the current point. *)
Lemma hopf_flow_solves (o : Hopf.osc) (x y t : R) :
  0 < Hopf.amplitude o -> 0 <= Hopf.mu o -> 0 <= t ->
  hopf_flow (Hopf.amplitude o) (Hopf.omega o) (Hopf.mu o) [x; y] 0 = [x; y] /\
  exists dx dy,
    Hopf.equations o (hopf_flow (Hopf.amplitude o) (Hopf.omega o) (Hopf.mu o) [x; y] t) = Some [dx; dy] /\
    derivable_pt_lim (fun u => nth 0 (hopf_flow (Hopf.amplitude o) (Hopf.omega o) (Hopf.mu o) [x; y] u) 0) t dx /\
    derivable_pt_lim (fun u => nth 1 (hopf_flow (Hopf.amplitude o) (Hopf.omega o) (Hopf.mu o) [x; y] u) 0) t dy.
Proof.
  destruct o as [A w mu x0 y0 last]. cbn [Hopf.amplitude Hopf.omega Hopf.mu]. intros HA Hmu Ht.
  assert (Hr : 0 <= x ^ 2 + y ^ 2) by nra.
  split.
  - unfold hopf_flow, flow_gain, flow_den.
    rewrite !Rmult_0_r, Ropp_0, exp_0, cos_0, sin_0.
    replace (A / (x ^ 2 + y ^ 2 + (A - (x ^ 2 + y ^ 2)) * 1)) with 1 by (field; lra).
    rewrite sqrt_1. f_equal; [ring|f_equal; ring].
  - set (rho := x ^ 2 + y ^ 2).
    set (s := flow_gain A mu rho t).
    set (c := x * cos (w * t) - y * sin (w * t)).
    set (d := x * sin (w * t) + y * cos (w * t)).
    pose proof (flow_den_pos A mu rho t HA Hmu Hr Ht) as HD.
    assert (HSS : s * s = A / flow_den A mu rho t)
      by (unfold s, flow_gain; apply sqrt_sqrt; unfold Rdiv; apply Rmult_le_pos; [lra|left; apply Rinv_0_lt_compat; lra]).
    assert (Hsq : (s * c) ^ 2 + (s * d) ^ 2 = rho * (A / flow_den A mu rho t)).
    { transitivity (s * s * (c ^ 2 + d ^ 2)); [ring|]. unfold c, d. rewrite rot_radius, HSS. fold rho. ring. }
    exists (mu * (A - rho * (A / flow_den A mu rho t)) * s * c - w * (s * d)),
           (mu * (A - rho * (A / flow_den A mu rho t)) * s * d + w * (s * c)).
    split; [|split].
    + unfold hopf_flow, Hopf.equations. cbn [Hopf.amplitude Hopf.omega Hopf.mu].
      fold rho s c d. rewrite Hsq. f_equal. f_equal; [ring|f_equal; ring].
    + cbn [nth]. unfold hopf_flow. fold rho.
      apply (dl_val _ _ (mu * (A - rho * (A / flow_den A mu rho t)) * s * c + s * (- w * d))); [|ring].
      eapply dl_val.
      * apply (derivable_pt_lim_mult (flow_gain A mu rho) (fun u => x * cos (w * u) - y * sin (w * u))).
        -- apply flow_gain_deriv; [lra|lra|exact Hr|lra].
        -- apply (derivable_pt_lim_minus (fun u => x * cos (w * u)) (fun u => y * sin (w * u)));
             apply (derivable_pt_lim_mult (fun _ => _)); (apply derivable_pt_lim_const || apply dl_cos_lin || apply dl_sin_lin).
      * fold s c d. unfold d. ring.
    + cbn [nth]. unfold hopf_flow. fold rho.
      apply (dl_val _ _ (mu * (A - rho * (A / flow_den A mu rho t)) * s * d + s * (w * c))); [|ring].
      eapply dl_val.
      * apply (derivable_pt_lim_mult (flow_gain A mu rho) (fun u => x * sin (w * u) + y * cos (w * u))).
        -- apply flow_gain_deriv; [lra|lra|exact Hr|lra].
        -- apply (derivable_pt_lim_plus (fun u => x * sin (w * u)) (fun u => y * cos (w * u)));
             apply (derivable_pt_lim_mult (fun _ => _)); (apply derivable_pt_lim_const || apply dl_cos_lin || apply dl_sin_lin).
      * fold s c d. unfold c. ring.
Qed.

Lemma hopf_flow_solves_witness :
  0 < Hopf.amplitude (Hopf.init 1 1 1 0) /\
  hopf_flow 1 (2 * PI * 1) 1 [0.1; 0] 0 = [0.1; 0].
Proof.
  split; [cbn [Hopf.amplitude Hopf.init]; lra|].
  exact (proj1 (hopf_flow_solves (Hopf.init 1 1 1 0) 0.1 0 1
                  ltac:(cbn [Hopf.amplitude Hopf.init]; lra)
                  ltac:(cbn [Hopf.mu Hopf.init]; lra) ltac:(lra))).
Defined.

Lemma pow_range e k : 0 < e <= 1 -> 0 < e ^ k <= 1.
Proof.
  intros He. induction k as [|k IH]; cbn [pow]; [lra|]. split; [apply Rmult_lt_0_compat; lra|nra].
Qed.

Section HopfRun.

Variable odeint : (list R -> option (list R)) -> list R -> R -> option (list R).
Variables A f mu now dt : R.
Hypothesis HA : 0 < A.
Hypothesis Hmu : 0 <= mu.
Hypothesis Hdt : 0 <= dt.
Hypothesis Hexact : forall o x y,
  Hopf.amplitude o = A -> Hopf.omega o = 2 * PI * f -> Hopf.mu o = mu ->
  odeint (Hopf.equations o) [x; y] dt = Some (hopf_flow A (2 * PI * f) mu [x; y] dt).

Lemma hopf_run_radius k :
  exists o, Hopf.run odeint (Hopf.init A f mu now) now dt k = Some o /\
    Hopf.amplitude o = A /\ Hopf.omega o = 2 * PI * f /\ Hopf.mu o = mu /\
    Hopf.x o ^ 2 + Hopf.y o ^ 2 = radius_map A (0.1 ^ 2 + 0 ^ 2) (exp (- (2 * mu * A * dt)) ^ k).
Proof.
  pose proof (flow_exp_range A mu dt HA Hmu Hdt) as HE.
  set (E := exp (- (2 * mu * A * dt))) in *.
  assert (Hr0 : 0 <= 0.1 ^ 2 + 0 ^ 2) by lra.
  induction k as [|k IH].
  - exists (Hopf.init A f mu now). cbn [Hopf.run pow].
    refine (conj eq_refl (conj eq_refl (conj eq_refl (conj eq_refl _)))).
    rewrite radius_map_1 by lra. reflexivity.
  - destruct IH as (o & Hrun & Ha & Hw & Hm & Hrad).
    destruct (hopf_flow_radius A (2 * PI * f) mu (Hopf.x o) (Hopf.y o) dt HA Hmu Hdt)
      as (x' & y' & Hf & Hr').
    exists (Hopf.mk_osc (Hopf.amplitude o) (Hopf.omega o) (Hopf.mu o) x' y' (Hopf.last_update_time o)).
    cbn [Hopf.run]. rewrite Hrun. unfold Hopf.update.
    rewrite (Hexact o (Hopf.x o) (Hopf.y o) Ha Hw Hm), Hf.
    cbn [Hopf.amplitude Hopf.omega Hopf.mu Hopf.x Hopf.y].
    refine (conj eq_refl (conj Ha (conj Hw (conj Hm _)))).
    rewrite Hr', Hrad. fold E.
    pose proof (pow_range E k HE) as Hk.
    rewrite radius_map_comp by lra.
    f_equal. cbn [pow]. ring.
Qed.

End HopfRun.

(** Claim C9. An isolated [HopfOscillator] started at [(0.1, 0)] and
    ticked with a fixed [dt > 0], the solver returning the exact solution
    of [equations]: after every tick [x^2 + y^2] lies between [0.01] and
    [amplitude], and from some tick on it stays within [1e-3] of
    [amplitude]. *)
Theorem hopf_converges odeint (A f mu now dt : R) :
  0 < A -> 0 < mu -> 0 < dt ->
  (forall o x y,
     Hopf.amplitude o = A -> Hopf.omega o = 2 * PI * f -> Hopf.mu o = mu ->
     odeint (Hopf.equations o) [x; y] dt = Some (hopf_flow A (2 * PI * f) mu [x; y] dt)) ->
  (forall k, exists o, Hopf.run odeint (Hopf.init A f mu now) now dt k = Some o /\
     Rmin (0.1 ^ 2) A <= Hopf.x o ^ 2 + Hopf.y o ^ 2 <= Rmax (0.1 ^ 2) A) /\
  exists K, forall k o, (K <= k)%nat ->
    Hopf.run odeint (Hopf.init A f mu now) now dt k = Some o ->
    Rabs (Hopf.x o ^ 2 + Hopf.y o ^ 2 - A) < 1 / 1000.
Proof.
  intros HA Hmu Hdt Hex.
  assert (Hmu' : 0 <= mu) by lra. assert (Hdt' : 0 <= dt) by lra.
  pose proof (flow_exp_range A mu dt HA Hmu' Hdt') as HE.
  assert (HE1 : exp (- (2 * mu * A * dt)) < 1).
  { rewrite <- exp_0. apply exp_increasing.
    assert (0 < mu * A * dt) by (apply Rmult_lt_0_compat; [apply Rmult_lt_0_compat|]; lra). lra. }
  set (E := exp (- (2 * mu * A * dt))) in *.
  assert (Hr0 : 0.1 ^ 2 + 0 ^ 2 = 0.1 ^ 2) by ring.
  split.
  - intros k. destruct (hopf_run_radius odeint A f mu now dt HA Hmu' Hdt' Hex k) as (o & Hrun & _ & _ & _ & Hrad).
    exists o. split; [exact Hrun|]. rewrite Hrad. fold E. rewrite Hr0.
    apply radius_map_bounds; [lra|lra|apply pow_range; lra].
  - set (r0 := 0.1 ^ 2).
    assert (Hr0p : 0 < r0) by (unfold r0; lra).
    assert (Hm : 0 < Rmin r0 A) by (apply Rmin_glb_lt; lra).
    set (B := A * Rabs (A - r0)).
    assert (HB : 0 <= B) by (unfold B; apply Rmult_le_pos; [lra|apply Rabs_pos]).
    assert (Heps : 0 < Rmin r0 A / (1000 * (B + 1))) by (apply Rdiv_lt_0_compat; lra).
    destruct (pow_lt_1_zero E ltac:(rewrite Rabs_right; lra) _ Heps) as [K HK].
    exists K. intros k o Hk Hrun.
    destruct (hopf_run_radius odeint A f mu now dt HA Hmu' Hdt' Hex k) as (o' & Hrun' & _ & _ & _ & Hrad).
    rewrite Hrun in Hrun'. injection Hrun' as <-.
    rewrite Hrad. fold E. rewrite Hr0. fold r0.
    pose proof (pow_range E k (conj (proj1 HE) (Rlt_le _ _ HE1))) as Hk'.
    specialize (HK k Hk). rewrite Rabs_right in HK by lra.
    eapply Rle_lt_trans; [apply radius_map_close; lra|]. fold B.
    apply (Rmult_lt_reg_r (Rmin r0 A)); [exact Hm|].
    unfold Rdiv. rewrite Rmult_assoc, Rinv_l, Rmult_1_r by lra.
    assert (Hk2 : E ^ k * (1000 * (B + 1)) < Rmin r0 A).
    { apply (Rmult_lt_reg_r (/ (1000 * (B + 1)))); [apply Rinv_0_lt_compat; lra|].
      rewrite Rmult_assoc, Rinv_r, Rmult_1_r by lra. exact HK. }
    nra.
Qed.

(** Witness for C9: the exact solver for [amplitude = 1], [frequency = 1],
    [mu = 1] and [dt = 0.05]. *)
Lemma hopf_converges_witness :
  (forall k, exists o, Hopf.run (fun _ st t => Some (hopf_flow 1 (2 * PI * 1) 1 st t))
       (Hopf.init 1 1 1 0) 0 (1 / 20) k = Some o /\
     Rmin (0.1 ^ 2) 1 <= Hopf.x o ^ 2 + Hopf.y o ^ 2 <= Rmax (0.1 ^ 2) 1) /\
  exists K, forall k o, (K <= k)%nat ->
    Hopf.run (fun _ st t => Some (hopf_flow 1 (2 * PI * 1) 1 st t)) (Hopf.init 1 1 1 0) 0 (1 / 20) k = Some o ->
    Rabs (Hopf.x o ^ 2 + Hopf.y o ^ 2 - 1) < 1 / 1000.
Proof.
  apply (hopf_converges (fun _ st t => Some (hopf_flow 1 (2 * PI * 1) 1 st t)) 1 1 1 0 (1 / 20));
    [lra|lra|lra|intros o x y _ _ _; reflexivity].
Defined.

(** ** The plain and the extended network side by side *)

Ltac net_cbn :=
  cbn [Loco.n Loco.amplitude Loco.base_frequency Loco.omega Loco.mu Loco.state
       Loco.coupling_weights Loco.phase_biases Loco.frequencies Loco.amplitudes
       Loco.current_gait Loco.direction_phase Loco.turning Loco.turning_direction
       Loco.turning_factor Loco.last_update_time
       Loco.with_matrices Loco.with_gait Loco.with_turn Loco.with_state
       Plain.n Plain.amplitude Plain.omega Plain.mu Plain.state
       Plain.coupling_weights Plain.phase_biases Plain.last_update_time
       Plain.with_matrices Plain.with_state] in *.

Lemma lockstep_outputs (s : Loco.net) (p : Plain.net) :
  in_lockstep s p -> same_outputs s p.
Proof.
  intros (Hag & Hst & Hlast) odeint ticks. revert s p Hag Hst Hlast.
  induction ticks as [|[now dt] rest IH]; intros s p Hag Hst Hlast; simpl;
    [reflexivity|].
  destruct (update_agree odeint s p now dt Hag Hst Hlast) as (Hag1 & Hst1 & Hl1 & Hout).
  destruct (Loco.update odeint s now dt) as [s1 o1].
  destruct (Plain.update odeint p now dt) as [p1 o2]. simpl in *.
  specialize (IH s1 p1 Hag1 Hst1 Hl1).
  destruct (loco_run odeint s1 rest) as [s2 os1].
  destruct (plain_run odeint p1 rest) as [p2 os2]. simpl in *. congruence.
Qed.

Lemma nth_repeat_below (x : R) (n i : nat) : (i < n)%nat -> nth i (repeat x n) 0 = x.
Proof. intros Hi. apply nth_lookup_Some, lookup_repeat_lt, Hi. Qed.

(** Extra. The constructor of [cpg_loconetwork.py] (recursion budget of
    one call) and the constructor of [cpg_network.py], called with the same
    [n], amplitude, frequency and [mu] at the same time, build two networks
    in lockstep: same configuration, state and clock, so any sequence of
    [update] calls returns the same outputs on both. *)
Theorem init_lockstep (fuel n : nat) (A f mu now : R) :
  (1 <= fuel)%nat ->
  snd (Loco.init fuel n A f mu now) = Ok /\
  in_lockstep (fst (Loco.init fuel n A f mu now)) (Plain.init n A f mu now) /\
  same_outputs (fst (Loco.init fuel n A f mu now)) (Plain.init n A f mu now).
Proof.
  intros Hf. destruct fuel as [|k]; [lia|].
  destruct (gait_loop n 1 tripod_bias) as [W P] eqn:E.
  assert (HL : in_lockstep (fst (Loco.init (S k) n A f mu now)) (Plain.init n A f mu now) /\
               snd (Loco.init (S k) n A f mu now) = Ok).
  { unfold Loco.init, Plain.init, Plain.set_tripod_gait.
    match goal with |- context [Loco.set_tripod_gait (S k) 1 true ?s0] =>
      rewrite (loco_tripod_forward k 1 true s0 W P eq_refl E) end.
    cbn [Plain.n]. rewrite E.
    unfold in_lockstep, plain_agrees. cbn [fst snd]. net_cbn.
    split; [|reflexivity].
    refine (conj (conj eq_refl (conj eq_refl (conj eq_refl (conj eq_refl
      (conj eq_refl (conj eq_refl (conj _ _))))))) (conj eq_refl eq_refl));
      intros i Hi; apply nth_repeat_below, Hi. }
  destruct HL as [HL Hok].
  split; [exact Hok|split; [exact HL|apply lockstep_outputs, HL]].
Qed.

Lemma init_lockstep_witness :
  (1 <= 1)%nat /\ snd (Loco.init 1 6 1 1 1 0) = Ok.
Proof.
  split; [lia|]. exact (proj1 (init_lockstep 1 6 1 1 1 0 (le_n 1))).
Defined.

(** Extra. Two networks in lockstep (an extended one of
    [cpg_loconetwork.py] with per-leg arrays of length [n], and a plain one
    of [cpg_network.py]) stay in lockstep, and so keep returning the same
    outputs, after the same [set_tripod_gait(cs)] or [set_wave_gait(cs)]
    (the extended one resetting the direction, recursion budget of one
    call) or after [reset()] at the same time. *)
Theorem lockstep_kept (fuel : nat) (cs now : R) (s : Loco.net) (p : Plain.net) :
  (1 <= fuel)%nat -> in_lockstep s p ->
  length (Loco.amplitudes s) = Loco.n s -> length (Loco.frequencies s) = Loco.n s ->
  (in_lockstep (fst (Loco.set_tripod_gait fuel cs true s)) (Plain.set_tripod_gait cs p) /\
   same_outputs (fst (Loco.set_tripod_gait fuel cs true s)) (Plain.set_tripod_gait cs p)) /\
  (in_lockstep (fst (Loco.set_wave_gait fuel cs true s)) (Plain.set_wave_gait cs p) /\
   same_outputs (fst (Loco.set_wave_gait fuel cs true s)) (Plain.set_wave_gait cs p)) /\
  (in_lockstep (Loco.reset now s) (Plain.reset now p) /\
   same_outputs (Loco.reset now s) (Plain.reset now p)).
Proof.
  intros Hf HL HA HF. destruct fuel as [|k]; [lia|].
  assert (Hboth : forall s' p', in_lockstep s' p' ->
                    in_lockstep s' p' /\ same_outputs s' p')
    by (intros s' p' H; split; [exact H|apply lockstep_outputs, H]).
  destruct HL as ((Hn & Ha & Hw & Hmu & HW & HP & Hfr & Ham) & Hst & Hlast).
  split; [|split]; apply Hboth.
  - destruct (gait_loop (Loco.n s) cs tripod_bias) as [W P] eqn:E.
    rewrite (loco_tripod_forward k cs true s W P eq_refl E).
    unfold Plain.set_tripod_gait. rewrite Hn, E.
    unfold in_lockstep, plain_agrees. cbn [fst]. net_cbn.
    refine (conj (conj _ (conj _ (conj _ (conj _ (conj eq_refl (conj eq_refl
      (conj _ _))))))) (conj _ _)); assumption.
  - destruct (gait_loop (Loco.n s) cs (wave_bias (Loco.n s))) as [W P] eqn:E.
    rewrite (loco_wave_forward k cs true s W P eq_refl E).
    unfold Plain.set_wave_gait. rewrite Hn, E.
    unfold in_lockstep, plain_agrees. cbn [fst]. net_cbn.
    refine (conj (conj _ (conj _ (conj _ (conj _ (conj eq_refl (conj eq_refl
      (conj _ _))))))) (conj _ _)); assumption.
  - unfold Loco.reset, Plain.reset.
    destruct (Loco.restore_loop _) as [A' F'] eqn:E.
    destruct (restore_loop_spec (Loco.with_state (seed_state (Loco.n s)) now s) A' F'
                HA HF E) as (_ & _ & Hget).
    unfold in_lockstep, plain_agrees. net_cbn. rewrite Hn.
    refine (conj (conj _ (conj _ (conj _ (conj _ (conj _ (conj _
      (conj _ _))))))) (conj eq_refl eq_refl)); try assumption; try reflexivity.
    + intros i Hi. apply nth_lookup_Some, (proj2 (Hget i Hi)).
    + intros i Hi. apply nth_lookup_Some, (proj1 (Hget i Hi)).
Qed.

Lemma lockstep_kept_witness :
  (1 <= 1)%nat /\ in_lockstep sample_net sample_plain /\
  length (Loco.amplitudes sample_net) = Loco.n sample_net /\
  length (Loco.frequencies sample_net) = Loco.n sample_net /\
  same_outputs (Loco.reset 0 sample_net) (Plain.reset 0 sample_plain).
Proof.
  assert (HL : in_lockstep sample_net sample_plain).
  { split; [|split; reflexivity].
    repeat split; intros i Hi; destruct i as [|[|i]]; try reflexivity;
      simpl in Hi; lia. }
  assert (HA : length (Loco.amplitudes sample_net) = Loco.n sample_net) by reflexivity.
  assert (HF : length (Loco.frequencies sample_net) = Loco.n sample_net) by reflexivity.
  split; [lia|split; [exact HL|split; [exact HA|split; [exact HF|]]]].
  exact (proj2 (proj2 (proj2 (lockstep_kept 1 1 0 sample_net sample_plain
                                (le_n 1) HL HA HF)))).
Defined.
